(** * Padel match counter: the match state engine of [src/app/page.tsx]

    The page component [Home] keeps one [MatchState] in a React state cell,
    mirrors it to [localStorage] under the key ['padelMatch'], and derives
    team totals and a chart series from it.  This development embeds the
    handlers and derived-data functions of that component and proves the
    properties stated about them.

    Conventions of the embedding:
    - a TypeScript [number] that holds a count, a score, an index or a
      [Date.now()] reading is a [Z];
    - a JavaScript string is a Rocq [string], read as the UTF-8 encoding of
      the text;
    - an array is a [list]; an object used as a record is a [Record]; an
      object built with computed keys is a [gmap string _];
    - [setMatchState] followed by the re-render it causes is explicit state
      passing on the record [Home]; the answer to [window.confirm], the
      clock and the text of an imported file are arguments of the handlers.

    Limits of the embedding: integers are unbounded, while a JavaScript
    number is exact between -(2^53 - 1) and 2^53 - 1 only ([safeInteger]);
    a page is in the model while its state cell holds a [MatchState], which
    an import or a load of a text of another shape ends, and so does a key
    event whose key is a property name of [Object.prototype]; the render is
    embedded as far as it can fail ([renders]), not for what it draws. *)

From Stdlib Require Import ZArith Ascii String List Bool Lia DecimalN.
From stdpp Require Import base option list gmap strings fin_maps.

Local Open Scope string_scope.
Local Open Scope list_scope.
Local Open Scope Z_scope.

(** ** String.prototype.trim *)

Module Trim.

(** The code points that [trim] strips (WhiteSpace and LineTerminator of
    ECMA-262), by the length of their UTF-8 encoding. *)
Definition ws1 (a : ascii) : bool :=
  let n := nat_of_ascii a in
  ((9 <=? n) && (n <=? 13) || (n =? 32))%nat.

(** U+00A0 *)
Definition ws2 (a b : ascii) : bool :=
  ((nat_of_ascii a =? 194) && (nat_of_ascii b =? 160))%nat.

(** U+1680, U+2000..U+200A, U+2028, U+2029, U+202F, U+205F, U+3000,
    U+FEFF *)
Definition ws3 (a b c : ascii) : bool :=
  let x := nat_of_ascii a in
  let y := nat_of_ascii b in
  let z := nat_of_ascii c in
  ((x =? 225) && (y =? 154) && (z =? 128)
   || (x =? 226) && (y =? 128)
      && ((128 <=? z) && (z <=? 138) || (z =? 168) || (z =? 169) || (z =? 175))
   || (x =? 226) && (y =? 129) && (z =? 159)
   || (x =? 227) && (y =? 128) && (z =? 128)
   || (x =? 239) && (y =? 187) && (z =? 191))%nat.

(** [strip fwd s] removes leading white space from [s]; with
    [fwd = false] the bytes of [s] are read back to front, as they are
    when the end of a string is trimmed. *)
Fixpoint strip (fwd : bool) (s : list ascii) : list ascii :=
  match s with
  | [] => []
  | a :: s1 =>
      if ws1 a then strip fwd s1
      else match s1 with
           | [] => s
           | b :: s2 =>
               if (if fwd then ws2 a b else ws2 b a) then strip fwd s2
               else match s2 with
                    | [] => s
                    | c :: s3 =>
                        if (if fwd then ws3 a b c else ws3 c b a)
                        then strip fwd s3
                        else s
                    end
           end
  end.

Definition trim (s : string) : string :=
  string_of_list_ascii
    (rev (strip false (rev (strip true (list_ascii_of_string s))))).

End Trim.

Definition trim := Trim.trim.

(** ** Data model (the three interfaces at the top of the file) *)

(** ['winners' | 'unforced_errors'] *)
Inductive Stat := stat_winners | stat_unforced_errors.

Record PlayerStats := {
  name : string;
  winners : Z;
  unforced_errors : Z;
  score : Z
}.

Record StatEntry := {
  point : Z;
  playerIndex : Z;
  stat : Stat;
  timestamp : Z
}.

Record MatchState := {
  players : list PlayerStats;
  isGameStarted : bool;
  statHistory : list StatEntry
}.

#[global] Instance Stat_eq_dec : EqDecision Stat.
Proof. solve_decision. Defined.
#[global] Instance PlayerStats_eq_dec : EqDecision PlayerStats.
Proof. solve_decision. Defined.
#[global] Instance StatEntry_eq_dec : EqDecision StatEntry.
Proof. solve_decision. Defined.
#[global] Instance MatchState_eq_dec : EqDecision MatchState.
Proof. solve_decision. Defined.

(** The initial value of the state cell, also written by [resetMatch]. *)
Definition emptyMatch : MatchState :=
  {| players := []; isGameStarted := false; statHistory := [] |}.

(** ** startMatch *)

Definition newPlayer (n : string) : PlayerStats :=
  {| name := trim n; winners := 0; unforced_errors := 0; score := 0 |}.

Definition namesReady (playerNames : list string) : bool :=
  forallb (fun n => negb (String.eqb (trim n) "")) playerNames.

(** [startMatch playerNames] is [Some] of the state passed to
    [setMatchState], or [None] when a name is blank and nothing is set. *)
Definition startMatch (playerNames : list string) : option MatchState :=
  if namesReady playerNames
  then Some {| players := map newPlayer playerNames;
               isGameStarted := true;
               statHistory := [] |}
  else None.

(** ** incrementStat *)

Definition statValue (st : Stat) : Z :=
  match st with stat_winners => 2 | stat_unforced_errors => -1 end.

(** [{ ...player, [stat]: player[stat] + 1, score: player.score + statValue }]
    The sums are those of the integers, which the sums of JavaScript
    numbers are as long as the operands and the result are safe integers
    ([exactCredit]). *)
Definition credit (st : Stat) (player : PlayerStats) : PlayerStats :=
  {| name := name player;
     winners := match st with
                | stat_winners => winners player + 1
                | stat_unforced_errors => winners player
                end;
     unforced_errors := match st with
                        | stat_winners => unforced_errors player
                        | stat_unforced_errors => unforced_errors player + 1
                        end;
     score := score player + statValue st |}.

(** [Number.isSafeInteger]: the integers that a JavaScript number holds
    exactly, and between which sums with a safe result are exact. *)
Definition safeInteger (z : Z) : Prop := - (2 ^ 53 - 1) <= z <= 2 ^ 53 - 1.

(** The counters and the score of [player] before and after [credit st]
    are safe integers: the three sums of the source are exact. *)
Definition exactCredit (st : Stat) (player : PlayerStats) : Prop :=
  safeInteger (winners player) /\ safeInteger (unforced_errors player)
  /\ safeInteger (score player)
  /\ safeInteger (winners (credit st player))
  /\ safeInteger (unforced_errors (credit st player))
  /\ safeInteger (score (credit st player)).

(** The [players.map] of the updater: position [index] is credited when
    [index === playerIndex]. *)
Definition creditAt (idx : Z) (st : Stat) (ps : list PlayerStats)
  : list PlayerStats :=
  imap (fun index player =>
          if decide (Z.of_nat index = idx) then credit st player else player)
       ps.

(** The updater passed to [setMatchState]; [now] is the value of
    [Date.now()]. *)
Definition incrementStat (idx : Z) (st : Stat) (now : Z) (prev : MatchState)
  : MatchState :=
  let newStatHistory :=
    statHistory prev ++
    [ {| point := Z.of_nat (length (statHistory prev)) + 1;
         playerIndex := idx;
         stat := st;
         timestamp := now |} ] in
  {| players := creditAt idx st (players prev);
     isGameStarted := isGameStarted prev;
     statHistory := newStatHistory |}.

(** ** getTeamStats *)

Record Totals := {
  total_winners : Z;
  total_unforced_errors : Z;
  total_score : Z
}.

Definition noTotals : Totals :=
  {| total_winners := 0; total_unforced_errors := 0; total_score := 0 |}.

(** [None] is the [TypeError] raised by reading a field of
    [matchState.players[playerIndex]] when that element is [undefined]. *)
Definition getTeamStats (teamIndex : Z) (s : MatchState) : option Totals :=
  if negb (isGameStarted s) then Some noTotals
  else
    let teamPlayers := if decide (teamIndex = 0) then [0; 1]%nat else [2; 3]%nat in
    foldl (fun (acc : option Totals) (i : nat) =>
             total ← acc;
             p ← players s !! i;
             Some {| total_winners := total_winners total + winners p;
                     total_unforced_errors :=
                       total_unforced_errors total + unforced_errors p;
                     total_score := total_score total + score p |})
          (Some noTotals) teamPlayers.

(** ** getChartData *)

(** The values held by [playerScores] and by the chart rows.  [NaN] is what
    [undefined + statValue] evaluates to. *)
Inductive jsnum := Num (z : Z) | NaN.

#[global] Instance jsnum_eq_dec : EqDecision jsnum.
Proof. solve_decision. Defined.

Definition jsadd (a : jsnum) (v : Z) : jsnum :=
  match a with Num z => Num (z + v) | NaN => NaN end.

(** [playerScores[idx] += v] on a JavaScript array.  Inside the array the
    element is updated.  At or past the end the array grows up to [idx]: the
    new element is [undefined + v = NaN], and the holes before it, which
    also read as [undefined], are recorded as [NaN] as well.  A negative
    [idx] names a property that is not an element, so the elements stay as
    they are. *)
Definition scoresAdd (a : list jsnum) (idx : Z) (v : Z) : list jsnum :=
  if decide (idx < 0) then a
  else if decide (idx < Z.of_nat (length a))
       then alter (fun x => jsadd x v) (Z.to_nat idx) a
       else a ++ replicate (Z.to_nat idx - length a)%nat NaN ++ [NaN].

(** [matchState.players[k]?.name || fallback] *)
Definition seriesKey (ps : list PlayerStats) (k : nat) (fallback : string)
  : string :=
  match ps !! k with
  | Some p => if decide (name p = "") then fallback else name p
  | None => fallback
  end.

(** One object literal pushed to [data].  Properties are defined in source
    order, so a later property with the same key replaces an earlier one. *)
Definition chartRow (ps : list PlayerStats) (pt : jsnum) (sc : list jsnum)
  : gmap string jsnum :=
  <[seriesKey ps 3 "Player 4" := nth 3 sc NaN]>
    (<[seriesKey ps 2 "Player 3" := nth 2 sc NaN]>
       (<[seriesKey ps 1 "Player 2" := nth 1 sc NaN]>
          (<[seriesKey ps 0 "Player 1" := nth 0 sc NaN]>
             (<["zero" := Num 0]> (<["point" := pt]> ∅))))).

Definition chartStep (ps : list PlayerStats)
  (acc : list jsnum * list (gmap string jsnum)) (entry : StatEntry)
  : list jsnum * list (gmap string jsnum) :=
  let playerScores := scoresAdd acc.1 (playerIndex entry) (statValue (stat entry)) in
  (playerScores, acc.2 ++ [chartRow ps (Num (point entry)) playerScores]).

Definition zeroScores : list jsnum := [Num 0; Num 0; Num 0; Num 0].

Definition getChartData (s : MatchState) : list (gmap string jsnum) :=
  let data := [chartRow (players s) (Num 0) zeroScores] in
  if (0 <? length (statHistory s))%nat
  then (foldl (chartStep (players s)) (zeroScores, data) (statHistory s)).2
  else data.

(** ** JSON values, JSON.stringify and JSON.parse

    The page stores and exchanges its state as JSON text.  Numbers are kept
    exact: an integer as [JNum], any other decimal as [JDec m e], standing
    for [m * 10^e] with [e < 0] and [m] not a multiple of ten (the rounding
    of JavaScript numbers to doubles is not represented).  The properties of
    an object are kept in insertion order. *)

Module JSON.

Unset Elimination Schemes.
Inductive value :=
| JNull
| JBool (b : bool)
| JNum (n : Z)
| JDec (m e : Z)
| JStr (s : string)
| JArr (items : list value)
| JObj (fields : list (string * value)).
Set Elimination Schemes.

Definition chars (s : string) : list ascii := list_ascii_of_string s.

(** The double quote character. *)
Definition dquote : ascii := "034"%char.

(** *** Text of a value: JSON.stringify(value, null, gap) *)

Fixpoint digits_of_uint (d : Decimal.uint) : list ascii :=
  match d with
  | Decimal.Nil => []
  | Decimal.D0 d => "0"%char :: digits_of_uint d
  | Decimal.D1 d => "1"%char :: digits_of_uint d
  | Decimal.D2 d => "2"%char :: digits_of_uint d
  | Decimal.D3 d => "3"%char :: digits_of_uint d
  | Decimal.D4 d => "4"%char :: digits_of_uint d
  | Decimal.D5 d => "5"%char :: digits_of_uint d
  | Decimal.D6 d => "6"%char :: digits_of_uint d
  | Decimal.D7 d => "7"%char :: digits_of_uint d
  | Decimal.D8 d => "8"%char :: digits_of_uint d
  | Decimal.D9 d => "9"%char :: digits_of_uint d
  end.

Definition print_int (z : Z) : list ascii :=
  (if z <? 0 then ["-"%char] else []) ++ digits_of_uint (N.to_uint (Z.abs_N z)).

Definition hexdigit (n : N) : ascii :=
  ascii_of_N (if (n <? 10)%N then 48 + n else 87 + n)%N.

(** QuoteJSONString: the two-character escapes, [\u00xx] for the other
    control characters, every other character as it is. *)
Definition escape (c : ascii) : list ascii :=
  let n := N_of_ascii c in
  if (n =? 8)%N then chars "\b"
  else if (n =? 9)%N then chars "\t"
  else if (n =? 10)%N then chars "\n"
  else if (n =? 12)%N then chars "\f"
  else if (n =? 13)%N then chars "\r"
  else if (n =? 34)%N then ["\"%char; dquote]
  else if (n =? 92)%N then chars "\\"
  else if (n <? 32)%N
       then chars "\u00" ++ [hexdigit (n / 16)%N; hexdigit (n mod 16)%N]
       else [c].

Definition quote (s : string) : list ascii :=
  dquote :: concat (map escape (chars s)) ++ [dquote].

(** The line break and indentation put after an opening bracket, between
    items and before a closing bracket: nothing when [gap] is 0. *)
Definition newline (gap ind : nat) : list ascii :=
  match gap with
  | O => []
  | S _ => "010"%char :: replicate ind " "%char
  end.

Definition colon (gap : nat) : list ascii :=
  match gap with O => [":"%char] | S _ => [":"%char; " "%char] end.

Fixpoint join (sep : list ascii) (parts : list (list ascii)) : list ascii :=
  match parts with
  | [] => []
  | [p] => p
  | p :: rest => p ++ sep ++ join sep rest
  end.

(** [print gap ind v] is the text of [v] at indentation [ind].  An integer
    is written with all its digits; a decimal that is not an integer is
    written as mantissa and exponent, a text of the same number as the one
    JavaScript writes. *)
Fixpoint print (gap ind : nat) (v : value) : list ascii :=
  match v with
  | JNull => chars "null"
  | JBool true => chars "true"
  | JBool false => chars "false"
  | JNum n => print_int n
  | JDec m e => print_int m ++ "e"%char :: print_int e
  | JStr s => quote s
  | JArr [] => chars "[]"
  | JArr items =>
      "["%char :: newline gap (ind + gap)
      ++ join (","%char :: newline gap (ind + gap))
              (map (print gap (ind + gap)) items)
      ++ newline gap ind ++ ["]"%char]
  | JObj [] => chars "{}"
  | JObj fields =>
      "{"%char :: newline gap (ind + gap)
      ++ join (","%char :: newline gap (ind + gap))
              (map (fun kv => quote kv.1 ++ colon gap ++ print gap (ind + gap) kv.2)
                   fields)
      ++ newline gap ind ++ ["}"%char]
  end.

Definition stringify (gap : nat) (v : value) : string :=
  string_of_list_ascii (print gap 0 v).

(** *** Value of a text: JSON.parse(text) *)

Definition is_ws (c : ascii) : bool :=
  let n := N_of_ascii c in
  ((n =? 32) || (n =? 9) || (n =? 10) || (n =? 13))%N.

Fixpoint skip_ws (s : list ascii) : list ascii :=
  match s with
  | c :: r => if is_ws c then skip_ws r else s
  | [] => []
  end.

Definition is_digit (c : ascii) : bool :=
  let n := N_of_ascii c in ((48 <=? n) && (n <=? 57))%N.

Fixpoint read_digits (s : list ascii) : list ascii * list ascii :=
  match s with
  | c :: r =>
      if is_digit c then let '(ds, r') := read_digits r in (c :: ds, r')
      else ([], s)
  | [] => ([], [])
  end.

Fixpoint uint_of_digits (ds : list ascii) : Decimal.uint :=
  match ds with
  | [] => Decimal.Nil
  | c :: r =>
      let d := uint_of_digits r in
      match N_of_ascii c with
      | 48 => Decimal.D0 d | 49 => Decimal.D1 d | 50 => Decimal.D2 d
      | 51 => Decimal.D3 d | 52 => Decimal.D4 d | 53 => Decimal.D5 d
      | 54 => Decimal.D6 d | 55 => Decimal.D7 d | 56 => Decimal.D8 d
      | _ => Decimal.D9 d
      end%N
  end.

Definition Z_of_digits (ds : list ascii) : Z := Z.of_uint (uint_of_digits ds).

(** The integer part of a number is one digit, or starts with a digit
    other than 0. *)
Definition int_ok (ds : list ascii) : bool :=
  match ds with
  | [] => false
  | [_] => true
  | c :: _ => negb (Ascii.eqb c "0")
  end.

(** The value of [m * 10^e]: trailing zeros of [m] are cancelled against
    a negative [e]. *)
Fixpoint number (fuel : nat) (m e : Z) : value :=
  if m =? 0 then JNum 0
  else if 0 <=? e then JNum (m * 10 ^ e)
  else match fuel with
       | O => JDec m e
       | S fuel =>
           if m mod 10 =? 0 then number fuel (m / 10) (e + 1) else JDec m e
       end.

Definition read_fraction (s : list ascii) : option (list ascii * list ascii) :=
  match s with
  | c :: r =>
      if Ascii.eqb c "." then
        let '(fp, r') := read_digits r in
        match fp with [] => None | _ => Some (fp, r') end
      else Some ([], s)
  | [] => Some ([], [])
  end.

Definition read_exponent (s : list ascii) : option (Z * list ascii) :=
  match s with
  | c :: r =>
      if Ascii.eqb c "e" || Ascii.eqb c "E" then
        let '(neg, r1) :=
          match r with
          | sg :: r' =>
              if Ascii.eqb sg "-" then (true, r')
              else if Ascii.eqb sg "+" then (false, r') else (false, r)
          | [] => (false, [])
          end in
        let '(ds, r2) := read_digits r1 in
        match ds with
        | [] => None
        | _ => Some (if neg then - Z_of_digits ds else Z_of_digits ds, r2)
        end
      else Some (0, s)
  | [] => Some (0, [])
  end.

(** The digits, fraction and exponent of a number, after its sign. *)
Definition read_unsigned (neg : bool) (s1 : list ascii)
  : option (value * list ascii) :=
  let '(ip, s2) := read_digits s1 in
  if int_ok ip then
    '(fp, s3) ← read_fraction s2;
    '(ex, s4) ← read_exponent s3;
    let m := Z_of_digits (ip ++ fp) in
    Some (number (length (ip ++ fp)) (if neg then - m else m)
                 (ex - Z.of_nat (length fp)), s4)
  else None.

Definition parse_number (s : list ascii) : option (value * list ascii) :=
  match s with
  | c :: r => if Ascii.eqb c "-" then read_unsigned true r else read_unsigned false s
  | [] => None
  end.

Definition hexval (c : ascii) : option N :=
  let n := N_of_ascii c in
  if (48 <=? n)%N && (n <=? 57)%N then Some (n - 48)%N
  else if (97 <=? n)%N && (n <=? 102)%N then Some (n - 87)%N
  else if (65 <=? n)%N && (n <=? 70)%N then Some (n - 55)%N
  else None.

Definition hex4 (a b c d : ascii) : option N :=
  x ← hexval a; y ← hexval b; z ← hexval c; w ← hexval d;
  Some (((x * 16 + y) * 16 + z) * 16 + w)%N.

(** UTF-8 encoding of a code point (a lone surrogate is encoded like any
    other code point below 65536). *)
Definition utf8 (cp : N) : list ascii :=
  (if cp <? 128 then [ascii_of_N cp]
   else if cp <? 2048
   then [ascii_of_N (192 + cp / 64); ascii_of_N (128 + cp mod 64)]
   else if cp <? 65536
   then [ascii_of_N (224 + cp / 4096); ascii_of_N (128 + (cp / 64) mod 64);
         ascii_of_N (128 + cp mod 64)]
   else [ascii_of_N (240 + cp / 262144); ascii_of_N (128 + (cp / 4096) mod 64);
         ascii_of_N (128 + (cp / 64) mod 64); ascii_of_N (128 + cp mod 64)])%N.

Definition unescape (e : ascii) : option ascii :=
  if Ascii.eqb e dquote then Some dquote
  else if Ascii.eqb e "\" then Some "\"%char
  else if Ascii.eqb e "/" then Some "/"%char
  else if Ascii.eqb e "b" then Some "008"%char
  else if Ascii.eqb e "f" then Some "012"%char
  else if Ascii.eqb e "n" then Some "010"%char
  else if Ascii.eqb e "r" then Some "013"%char
  else if Ascii.eqb e "t" then Some "009"%char
  else None.

(** The code point of a high surrogate [hi] and the escaped low surrogate
    that the six characters spell, when they spell one. *)
Definition low_surrogate (hi : N) (b u a' b' c' d' : ascii) : option N :=
  if Ascii.eqb b "\" && Ascii.eqb u "u" then
    match hex4 a' b' c' d' with
    | Some lo =>
        if (56320 <=? lo)%N && (lo <=? 57343)%N
        then Some (65536 + (hi - 55296) * 1024 + (lo - 56320))%N
        else None
    | None => None
    end
  else None.

(** [read_string s acc] reads the rest of a string literal, after its
    opening quote; [acc] holds the characters read so far, last first. *)
Fixpoint read_string (s : list ascii) (acc : list ascii)
  : option (string * list ascii) :=
  match s with
  | [] => None
  | c :: r =>
      if Ascii.eqb c dquote then Some (string_of_list_ascii (rev acc), r)
      else if Ascii.eqb c "\" then
        match r with
        | [] => None
        | e :: r1 =>
            if Ascii.eqb e "u" then
              match r1 with
              | a :: b :: c' :: d :: r2 =>
                  match hex4 a b c' d with
                  | None => None
                  | Some hi =>
                      if (55296 <=? hi)%N && (hi <=? 56319)%N then
                        match r2 with
                        | x1 :: x2 :: x3 :: x4 :: x5 :: x6 :: r3 =>
                            match low_surrogate hi x1 x2 x3 x4 x5 x6 with
                            | Some cp => read_string r3 (rev (utf8 cp) ++ acc)
                            | None => read_string r2 (rev (utf8 hi) ++ acc)
                            end
                        | _ => read_string r2 (rev (utf8 hi) ++ acc)
                        end
                      else read_string r2 (rev (utf8 hi) ++ acc)
                  end
              | _ => None
              end
            else match unescape e with
                 | Some x => read_string r1 (x :: acc)
                 | None => None
                 end
        end
      else if (N_of_ascii c <? 32)%N then None
      else read_string r (c :: acc)
  end.

Fixpoint expect (lit s : list ascii) : option (list ascii) :=
  match lit with
  | [] => Some s
  | c :: lit' =>
      match s with
      | x :: r => if Ascii.eqb c x then expect lit' r else None
      | [] => None
      end
  end.

(** A property that occurs twice in an object text keeps its first place
    and takes its last value. *)
Fixpoint set_field (k : string) (v : value) (fields : list (string * value))
  : list (string * value) :=
  match fields with
  | [] => [(k, v)]
  | (k', v') :: rest =>
      if decide (k' = k) then (k, v) :: rest
      else (k', v') :: set_field k v rest
  end.

Definition object_of (ms : list (string * value)) : value :=
  JObj (foldl (fun acc kv => set_field kv.1 kv.2 acc) [] ms).

(** [parse_value fuel s] reads one value at the front of [s] and returns
    it with the text that follows; [fuel] bounds the number of values,
    items and members read. *)
Fixpoint parse_value (fuel : nat) (s : list ascii)
  : option (value * list ascii) :=
  match fuel with
  | O => None
  | S fuel =>
      match skip_ws s with
      | [] => None
      | c :: r =>
          if Ascii.eqb c "{" then
            match skip_ws r with
            | x :: r' =>
                if Ascii.eqb x "}" then Some (JObj [], r')
                else '(ms, r'') ← parse_members fuel r; Some (object_of ms, r'')
            | [] => None
            end
          else if Ascii.eqb c "[" then
            match skip_ws r with
            | x :: r' =>
                if Ascii.eqb x "]" then Some (JArr [], r')
                else '(vs, r'') ← parse_items fuel r; Some (JArr vs, r'')
            | [] => None
            end
          else if Ascii.eqb c dquote then
            '(str, r') ← read_string r []; Some (JStr str, r')
          else if Ascii.eqb c "t" then
            r' ← expect (chars "rue") r; Some (JBool true, r')
          else if Ascii.eqb c "f" then
            r' ← expect (chars "alse") r; Some (JBool false, r')
          else if Ascii.eqb c "n" then
            r' ← expect (chars "ull") r; Some (JNull, r')
          else parse_number (c :: r)
      end
  end
with parse_items (fuel : nat) (s : list ascii)
  : option (list value * list ascii) :=
  match fuel with
  | O => None
  | S fuel =>
      '(v, r) ← parse_value fuel s;
      match skip_ws r with
      | x :: r' =>
          if Ascii.eqb x "," then
            '(vs, r'') ← parse_items fuel r'; Some (v :: vs, r'')
          else if Ascii.eqb x "]" then Some ([v], r')
          else None
      | [] => None
      end
  end
with parse_members (fuel : nat) (s : list ascii)
  : option (list (string * value) * list ascii) :=
  match fuel with
  | O => None
  | S fuel =>
      match skip_ws s with
      | q :: r =>
          if Ascii.eqb q dquote then
            '(k, r1) ← read_string r [];
            match skip_ws r1 with
            | x :: r2 =>
                if Ascii.eqb x ":" then
                  '(v, r3) ← parse_value fuel r2;
                  match skip_ws r3 with
                  | y :: r4 =>
                      if Ascii.eqb y "," then
                        '(ms, r5) ← parse_members fuel r4;
                        Some ((k, v) :: ms, r5)
                      else if Ascii.eqb y "}" then Some ([(k, v)], r4)
                      else None
                  | [] => None
                  end
                else None
            | [] => None
            end
          else None
      | [] => None
      end
  end.

(** JSON.parse; [None] is the SyntaxError it throws. *)
Definition parse (text : string) : option value :=
  let s := chars text in
  match parse_value (S (length s)) s with
  | Some (v, r) => match skip_ws r with [] => Some v | _ => None end
  | None => None
  end.

(** *** Values written by the page

    [plain v]: [v] holds integers only, and no object of [v] has two
    properties of the same name. *)
Fixpoint plain (v : value) : bool :=
  match v with
  | JDec _ _ => false
  | JArr items => forallb plain items
  | JObj fields =>
      bool_decide (NoDup (map fst fields))
      && forallb (fun kv => plain kv.2) fields
  | _ => true
  end.

(** A character that can follow a number in a text. *)
Definition delimiter (c : ascii) : bool :=
  negb (is_digit c || Ascii.eqb c "." || Ascii.eqb c "e" || Ascii.eqb c "E").

Definition terminated (rest : list ascii) : bool :=
  match rest with [] => true | c :: _ => delimiter c end.

(** A character that can start a value. *)
Definition starter (c : ascii) : bool :=
  is_digit c || Ascii.eqb c "-" || Ascii.eqb c dquote || Ascii.eqb c "["
  || Ascii.eqb c "{" || Ascii.eqb c "t" || Ascii.eqb c "f" || Ascii.eqb c "n".

(** The text of one property of an object. *)
Definition member_text (gap ind : nat) (kv : string * value) : list ascii :=
  quote kv.1 ++ colon gap ++ print gap ind kv.2.

(** [parse_value] reads [v] back from its text, whatever follows it. *)
Definition reads_back (gap ind : nat) (v : value) : Prop :=
  forall f rest,
    (length (print gap ind v) <= f)%nat -> terminated rest = true ->
    parse_value f (print gap ind v ++ rest) = Some (v, rest).

End JSON.

Import JSON.

(** ** The state as a JSON value

    [stateValue s] is the object that [JSON.stringify] sees when it is
    given the state [s]: the properties of each object in the order in
    which the page creates them (an object spread keeps the order of the
    object it copies). *)

Definition statName (st : Stat) : string :=
  match st with
  | stat_winners => "winners"
  | stat_unforced_errors => "unforced_errors"
  end.

Definition playerValue (p : PlayerStats) : value :=
  JObj [("name", JStr (name p));
        ("winners", JNum (winners p));
        ("unforced_errors", JNum (unforced_errors p));
        ("score", JNum (score p))].

Definition entryValue (e : StatEntry) : value :=
  JObj [("point", JNum (point e));
        ("playerIndex", JNum (playerIndex e));
        ("stat", JStr (statName (stat e)));
        ("timestamp", JNum (timestamp e))].

Definition stateValue (s : MatchState) : value :=
  JObj [("players", JArr (map playerValue (players s)));
        ("isGameStarted", JBool (isGameStarted s));
        ("statHistory", JArr (map entryValue (statHistory s)))].

(** The reading of a parsed value as a [MatchState]: defined on the values
    of the shape [stateValue] produces. *)

Definition statOfName (n : string) : option Stat :=
  if decide (n = "winners") then Some stat_winners
  else if decide (n = "unforced_errors") then Some stat_unforced_errors
  else None.

Definition playerOfValue (v : value) : option PlayerStats :=
  match v with
  | JObj [(k1, JStr n); (k2, JNum w); (k3, JNum u); (k4, JNum sc)] =>
      if decide (k1 = "name" ∧ k2 = "winners" ∧ k3 = "unforced_errors"
                 ∧ k4 = "score")
      then Some {| name := n; winners := w; unforced_errors := u; score := sc |}
      else None
  | _ => None
  end.

Definition entryOfValue (v : value) : option StatEntry :=
  match v with
  | JObj [(k1, JNum pt); (k2, JNum i); (k3, JStr n); (k4, JNum t)] =>
      if decide (k1 = "point" ∧ k2 = "playerIndex" ∧ k3 = "stat"
                 ∧ k4 = "timestamp")
      then st ← statOfName n;
           Some {| point := pt; playerIndex := i; stat := st; timestamp := t |}
      else None
  | _ => None
  end.

Definition stateOfValue (v : value) : option MatchState :=
  match v with
  | JObj [(k1, JArr ps); (k2, JBool b); (k3, JArr es)] =>
      if decide (k1 = "players" ∧ k2 = "isGameStarted" ∧ k3 = "statHistory")
      then ps' ← mapM playerOfValue ps;
           es' ← mapM entryOfValue es;
           Some {| players := ps'; isGameStarted := b; statHistory := es' |}
      else None
  | _ => None
  end.

(** ** Reading properties of a parsed value *)

(** The result of a property read: a value, or [undefined]. *)
Inductive jsref := Undefined | Ref (v : value).

Definition lookupField (k : string) (fields : list (string * value)) : jsref :=
  match list_find (fun kv => kv.1 = k) fields with
  | Some (_, kv) => Ref kv.2
  | None => Undefined
  end.

(** [v.k] for a property name [k] that no built-in prototype defines, which
    holds of the three names the import handler reads.  [None] is the
    TypeError raised when [v] is [null] or [undefined]. *)
Definition getProp (r : jsref) (k : string) : option jsref :=
  match r with
  | Undefined => None
  | Ref JNull => None
  | Ref (JObj fields) => Some (lookupField k fields)
  | Ref _ => Some Undefined
  end.

(** [JSON.parse] rounds a decimal to the nearest number, to zero when its
    magnitude is at most 2^-1075, half of the least positive number; zero
    is the one number read from a text that is not truthy. *)
Definition truthy (r : jsref) : bool :=
  match r with
  | Undefined => false
  | Ref JNull => false
  | Ref (JBool b) => b
  | Ref (JNum n) => negb (n =? 0)
  | Ref (JDec m e) => 10 ^ (- e) <? Z.abs m * 2 ^ 1075
  | Ref (JStr s) => negb (String.eqb s "")
  | Ref (JArr _) => true
  | Ref (JObj _) => true
  end.

Definition isArray (r : jsref) : bool :=
  match r with Ref (JArr _) => true | _ => false end.

(** ** The page: state cells, localStorage, handlers and the persist effect *)

Record Home := {
  matchState : MatchState;
  playerNames : list string;
  localStorage : gmap string string
}.

Definition storageKey : string := "padelMatch".

Definition initialHome (storage : gmap string string) : Home :=
  {| matchState := emptyMatch;
     playerNames := [""; ""; ""; ""];
     localStorage := storage |}.

(** The effect with dependency [[matchState]]: it runs in the render that
    follows every [setMatchState]. *)
Definition persist (h : Home) : Home :=
  {| matchState := matchState h;
     playerNames := playerNames h;
     localStorage :=
       <[storageKey := stringify 0 (stateValue (matchState h))]> (localStorage h) |}.

Definition setMatchState (s : MatchState) (h : Home) : Home :=
  {| matchState := s; playerNames := playerNames h; localStorage := localStorage h |}.

(** [onChange] of the name input at position [i]. *)
Definition setPlayerName (i : nat) (v : string) (h : Home) : Home :=
  {| matchState := matchState h;
     playerNames := imap (fun j n => if decide (j = i) then v else n) (playerNames h);
     localStorage := localStorage h |}.

Definition onStartMatch (h : Home) : Home :=
  match startMatch (playerNames h) with
  | Some s => persist (setMatchState s h)
  | None => h
  end.

Definition onIncrementStat (idx : Z) (st : Stat) (now : Z) (h : Home) : Home :=
  persist (setMatchState (incrementStat idx st now (matchState h)) h).

(** [keyMap] of [handleKeyPress]: the eight properties of the object
    literal itself. *)
Definition keyMap (key : string) : option (Z * Stat) :=
  if decide (key = "1") then Some (0, stat_winners)
  else if decide (key = "2") then Some (0, stat_unforced_errors)
  else if decide (key = "3") then Some (1, stat_winners)
  else if decide (key = "4") then Some (1, stat_unforced_errors)
  else if decide (key = "5") then Some (2, stat_winners)
  else if decide (key = "6") then Some (2, stat_unforced_errors)
  else if decide (key = "7") then Some (3, stat_winners)
  else if decide (key = "8") then Some (3, stat_unforced_errors)
  else None.

(** The names of the properties that the object literal inherits from
    [Object.prototype].  The test [key in keyMap] holds of them too; for
    such a key [keyMap[key]] is a function or an object without the
    properties [playerIndex] and [stat], and the handler calls
    [incrementStat(undefined, undefined)], which credits no player and
    appends an entry without player index and stat: an entry that
    [StatEntry] does not represent. *)
Definition objectPrototypeNames : list string :=
  [ "constructor"; "hasOwnProperty"; "isPrototypeOf"; "propertyIsEnumerable";
    "toLocaleString"; "toString"; "valueOf"; "__proto__";
    "__defineGetter__"; "__defineSetter__"; "__lookupGetter__";
    "__lookupSetter__" ].

Definition inherited (key : string) : bool :=
  bool_decide (key ∈ objectPrototypeNames).


(** The key handler, for a key that is not one of [objectPrototypeNames]
    (what it does on those is in [dispatch]). *)
Definition handleKeyPress (key : string) (now : Z) (h : Home) : Home :=
  if negb (isGameStarted (matchState h)) then h
  else match keyMap key with
       | Some (idx, st) => onIncrementStat idx st now h
       | None => h
       end.

(** [confirmed] is the answer given to [window.confirm]. *)
Definition resetMatch (confirmed : bool) (h : Home) : Home :=
  if confirmed
  then persist {| matchState := emptyMatch;
                  playerNames := [""; ""; ""; ""];
                  localStorage := delete storageKey (localStorage h) |}
  else h.

(** The text handed to the download; [iso] is [new Date().toISOString()]. *)
Definition exportMatchData (iso : string) (h : Home) : string :=
  stringify 2 (JObj [("matchState", stateValue (matchState h));
                     ("timestamp", JStr iso);
                     ("version", JStr "1.0")]).

(** What [reader.onload] does with the text of the file. *)
Inductive ImportOutcome :=
| Imported (v : value)   (* the [if] branch: [v] is [importedData.matchState] *)
| InvalidFormat          (* the [else] branch: alert 'Invalid file format. ...' *)
| ParseFailure.          (* the [catch] branch: alert 'Error reading file. ...' *)

(** The condition of the [if]; [None] is a TypeError raised while it is
    evaluated. *)
Definition importCondition (importedData : value) : option bool :=
  ms ← getProp (Ref importedData) "matchState";
  if truthy ms then
    pl ← getProp ms "players";
    if truthy pl then
      sh ← getProp ms "statHistory";
      Some (isArray sh)
    else Some false
  else Some false.

Definition readImport (text : string) : ImportOutcome :=
  match parse text with
  | None => ParseFailure
  | Some importedData =>
      match importCondition importedData with
      | None => ParseFailure
      | Some false => InvalidFormat
      | Some true =>
          match getProp (Ref importedData) "matchState" with
          | Some (Ref v) => Imported v
          | _ => ParseFailure
          end
      end
  end.

(** The render that follows [setMatchState].  On the game screen it calls
    [getTeamStats(0)] and [getTeamStats(1)]; the TypeError of either is
    caught nowhere, the page is taken down and the effects of that render,
    the persist effect among them, do not run.  Nothing else in the render
    fails on a [MatchState]: the setup screen reads [playerNames] only, and
    the rest of the game screen maps over [players.slice] and calls
    [getChartData]. *)
Definition renders (s : MatchState) : bool :=
  match getTeamStats 0 s, getTeamStats 1 s with
  | Some _, Some _ => true
  | _, _ => false
  end.

(** [importMatchData text confirmed h] is the page after the file has been
    read: [setMatchState], [setItem] when the confirmation is given, and the
    persist effect when the imported state renders.  When it does not
    render the page is gone, and the result records the state passed to
    [setMatchState] and the store as the handler left it.  The result is
    [None] when the text passes the three checks of the handler and yet is
    not the text of a [MatchState]: the state cell then holds a value
    outside the interface [MatchState], which [Home] does not represent. *)
Definition importMatchData (text : string) (confirmed : bool) (h : Home)
  : option Home :=
  match readImport text with
  | Imported v =>
      s ← stateOfValue v;
      let h1 := setMatchState s h in
      let h2 :=
        if confirmed
        then {| matchState := matchState h1;
                playerNames := playerNames h1;
                localStorage := <[storageKey := stringify 0 v]> (localStorage h1) |}
        else h1 in
      Some (if renders s then persist h2 else h2)
  | InvalidFormat => Some h
  | ParseFailure => Some h
  end.

(** ** Reachable pages *)

Inductive reachable : Home -> Prop :=
| reach_initial storage :
    reachable (initialHome storage)
| reach_setPlayerName h i v :
    reachable h -> reachable (setPlayerName i v h)
| reach_startMatch h :
    reachable h -> reachable (onStartMatch h)
| reach_incrementStat h idx st now :
    reachable h -> reachable (onIncrementStat idx st now h)
| reach_keyPress h key now :
    reachable h -> reachable (handleKeyPress key now h)
| reach_resetMatch h confirmed :
    reachable h -> reachable (resetMatch confirmed h)
| reach_import h h0 iso confirmed h' :
    reachable h -> reachable h0 ->
    importMatchData (exportMatchData iso h0) confirmed h = Some h' ->
    reachable h'.

(** ** Replaying a log (score projection)

    [projectAll names log] folds the roster update of [incrementStat] over
    [log], from the roster in which every player of [names] has all
    counters at zero. *)

Definition zeroPlayer (n : string) : PlayerStats :=
  {| name := n; winners := 0; unforced_errors := 0; score := 0 |}.

Definition applyEvent (ps : list PlayerStats) (e : StatEntry) : list PlayerStats :=
  creditAt (playerIndex e) (stat e) ps.

Definition projectAll (names : list string) (log : list StatEntry)
  : list PlayerStats :=
  foldl applyEvent (map zeroPlayer names) log.

(** A run of scoring actions: each is the player index, the stat and the
    clock reading of one call of [incrementStat]. *)
Definition runAppends (ops : list (Z * Stat * Z)) (s : MatchState) : MatchState :=
  foldl (fun s op => incrementStat op.1.1 op.1.2 op.2 s) s ops.

Definition sumZ (l : list Z) : Z := foldr Z.add 0 l.

(** The rows that the [forEach] of [getChartData] pushes, and the running
    scores it keeps. *)
Fixpoint chartRows (ps : list PlayerStats) (sc : list jsnum) (log : list StatEntry)
  : list (gmap string jsnum) :=
  match log with
  | [] => []
  | e :: log' =>
      let sc' := scoresAdd sc (playerIndex e) (statValue (stat e)) in
      chartRow ps (Num (point e)) sc' :: chartRows ps sc' log'
  end.

Definition scoresAfter (sc : list jsnum) (log : list StatEntry) : list jsnum :=
  foldl (fun sc e => scoresAdd sc (playerIndex e) (statValue (stat e))) sc log.

(** ** Statements used below *)

(** The player formula: two points per winner, one off per unforced
    error. *)
Definition scoreFormula (p : PlayerStats) : Prop :=
  score p = 2 * winners p - unforced_errors p.

(** The log has as many entries as the counters of the roster add up to. *)
Definition logMatchesCounters (s : MatchState) : Prop :=
  Z.of_nat (length (statHistory s))
  = sumZ (map (fun p => winners p + unforced_errors p) (players s)).

(** What is said of the chart series of a started state [s]: one row per
    log entry after a baseline row; the baseline row is all zero; row
    [i + 1] carries the point number of entry [i], a zero baseline and, under
    each player's name, that player's score in the replay of the first
    [i + 1] entries; the replay of the whole log is the roster of [s], so
    the last row carries the current scores. *)
Definition chartSeriesSpec (s : MatchState) : Prop :=
  let data := getChartData s in
  let log := statHistory s in
  let names := map name (players s) in
  length data = S (length log)
  /\ (exists row0,
        data !! 0%nat = Some row0
        /\ row0 !! "point" = Some (Num 0)
        /\ row0 !! "zero" = Some (Num 0)
        /\ forall p, p ∈ players s -> row0 !! name p = Some (Num 0))
  /\ (forall i e,
        log !! i = Some e ->
        exists row,
          data !! S i = Some row
          /\ row !! "point" = Some (Num (point e))
          /\ row !! "zero" = Some (Num 0)
          /\ forall k p,
               players s !! k = Some p ->
               exists q,
                 projectAll names (take (S i) log) !! k = Some q
                 /\ row !! name p = Some (Num (score q)))
  /\ players s = projectAll names log
  /\ (exists last,
        data !! length log = Some last
        /\ forall p, p ∈ players s -> last !! name p = Some (Num (score p))).

(** What every reachable state satisfies: the score formula; a roster of
    four once started and an empty one before; no empty name; the roster is
    the replay of the log; the log is numbered from 1. *)
Record consistent (s : MatchState) : Prop := {
  ok_scores :
    Forall (fun p => score p = 2 * winners p - unforced_errors p) (players s);
  ok_roster :
    if isGameStarted s then length (players s) = 4%nat else players s = [];
  ok_names : Forall (fun p => name p <> "") (players s);
  ok_replay : players s = projectAll (map name (players s)) (statHistory s);
  ok_points :
    map point (statHistory s) = map Z.of_nat (seq 1 (length (statHistory s)))
}.

(** The running scores [sc] of the chart agree with the roster [ps]. *)
Definition tracks (sc : list jsnum) (ps : list PlayerStats) : Prop :=
  (length ps <= length sc)%nat
  /\ forall k q, ps !! k = Some q -> sc !! k = Some (Num (score q)).

(** ** Mounting the page

    On the first render two effects run, in source order: the one that
    reads the saved state and, when there is one, passes [JSON.parse] of it
    to [setMatchState]; then the persist effect, which writes the initial
    state.  The render caused by [setMatchState] runs the persist effect
    again, on the loaded state, unless that render fails: the store then
    keeps the text of the initial state. *)

Inductive MountResult :=
| Ready (h : Home)
| LoadError                  (* [JSON.parse] threw inside the effect *)
| LoadedForeign (v : value)  (* the saved text is not the text of a [MatchState] *)
| RenderError (storage : gmap string string).
                             (* the loaded state does not render; what the store holds *)

Definition mount (storage : gmap string string) : MountResult :=
  let h0 := persist (initialHome storage) in
  match storage !! storageKey with
  | None => Ready h0
  | Some savedState =>
      if String.eqb savedState "" then Ready h0
      else match parse savedState with
           | None => LoadError
           | Some v =>
               match stateOfValue v with
               | Some s =>
                   if renders s then Ready (persist (setMatchState s h0))
                   else RenderError (localStorage h0)
               | None => LoadedForeign v
               end
           end
  end.

(** ** The controls of the two screens

    Before the match starts the page shows the four name inputs and the
    Start button; once it has started it shows, for the players at
    positions 0 and 1 and for those at positions 2 and 3, a winner button
    and an unforced-error button each, and the Export, Import and Reset
    controls.  The key listener is attached to the window on both
    screens. *)

(** A W or UE button: the arguments its [onClick] passes to
    [incrementStat], and the number printed on it. *)
Record StatButton := {
  target : Z;
  kind : Stat;
  keyHint : Z
}.

(** [slice.map((player, index) => ...)] with [index + offset] as the player
    index. *)
Definition teamButtons (offset : Z) (slice : list PlayerStats) : list StatButton :=
  concat (imap (fun index _ =>
                  let i := Z.of_nat index + offset in
                  [ {| target := i; kind := stat_winners; keyHint := i * 2 + 1 |};
                    {| target := i; kind := stat_unforced_errors;
                       keyHint := i * 2 + 2 |} ])
               slice).

Definition statButtons (s : MatchState) : list StatButton :=
  if isGameStarted s
  then teamButtons 0 (take 2 (players s))
       ++ teamButtons 2 (take 2 (drop 2 (players s)))
  else [].

(** The text of a number, as it is printed on a button and as the key of
    that digit is named in a key event. *)
Definition numberText (z : Z) : string := string_of_list_ascii (print_int z).

Inductive Action :=
| TypeName (i : nat) (text : string)
| ClickStart
| ClickStat (n : nat) (now : Z)          (* the [n]-th W/UE button of the page *)
| PressKey (key : string) (now : Z)
| ClickReset (confirmed : bool)
| ChooseFile (text : string) (confirmed : bool).

(** Where an action leaves the page. *)
Inductive Outcome :=
| Page (h : Home)                          (* the page is up, in state [h] *)
| Crashed (storage : gmap string string)   (* a render failed: the page is gone,
                                              the store is what is left *)
| Beyond.                                  (* the state cell holds a value that is
                                              not a [MatchState] *)

(** The render after a handler has left the page as [h], and the persist
    effect of that render. *)
Definition commit (h : Home) : Outcome :=
  if renders (matchState h) then Page (persist h) else Crashed (localStorage h).

(** What an action does to a page that is up; a control that the current
    screen does not show does nothing. *)
Definition dispatch (a : Action) (h : Home) : Outcome :=
  let started := isGameStarted (matchState h) in
  match a with
  | TypeName i text =>
      Page (if started then h
            else if (i <? 4)%nat then setPlayerName i text h else h)
  | ClickStart =>
      if started then Page h
      else match startMatch (playerNames h) with
           | Some s => commit (setMatchState s h)
           | None => Page h
           end
  | ClickStat n now =>
      match statButtons (matchState h) !! n with
      | Some b =>
          commit (setMatchState
                    (incrementStat (target b) (kind b) now (matchState h)) h)
      | None => Page h
      end
  | PressKey key now =>
      if negb started then Page h
      else match keyMap key with
           | Some (idx, st) =>
               commit (setMatchState (incrementStat idx st now (matchState h)) h)
           | None => if inherited key then Beyond else Page h
           end
  | ClickReset confirmed => Page (if started then resetMatch confirmed h else h)
  | ChooseFile text confirmed =>
      if started
      then match importMatchData text confirmed h with
           | Some h' =>
               if renders (matchState h') then Page h'
               else Crashed (localStorage h')
           | None => Beyond
           end
      else Page h
  end.

(** A session: the actions in turn, as long as the page is up. *)
Fixpoint run (actions : list Action) (h : Home) : Outcome :=
  match actions with
  | [] => Page h
  | a :: rest =>
      match dispatch a h with
      | Page h' => run rest h'
      | out => out
      end
  end.

(** The actions that keep the state cell a [MatchState]: a key that is not
    a name of [objectPrototypeNames], and a file that is refused or holds
    a match state in the shape in which the page writes it. *)
Definition covered (a : Action) : Prop :=
  match a with
  | PressKey key _ => key ∉ objectPrototypeNames
  | ChooseFile text _ =>
      forall v, readImport text = Imported v -> is_Some (stateOfValue v)
  | _ => True
  end.

(** The same, without any import. *)
Definition ownControl (a : Action) : Prop :=
  match a with
  | PressKey key _ => key ∉ objectPrototypeNames
  | ChooseFile _ _ => False
  | _ => True
  end.

(** The page at which a session ends, when it is still up. *)
Definition pageOf (o : Outcome) (h0 : Home) : Home :=
  match o with Page h => h | _ => h0 end.

(** The store cannot be told from one without the saved state: the page
    mounts on both in the same way. *)
Definition asGoodAsAbsent (storage : gmap string string) : Prop :=
  mount storage = mount (delete storageKey storage).

(** The store holds the text of the current state. *)
Definition mirrored (h : Home) : Prop :=
  localStorage h !! storageKey = Some (stringify 0 (stateValue (matchState h))).

(** A page as it is between two actions: its state has rendered and the
    persist effect of that render has run. *)
Definition live (h : Home) : Prop :=
  mirrored h /\ renders (matchState h) = true.

(** The text of the empty state, which the persist effect of the first
    render writes. *)
Definition emptyText : string := stringify 0 (stateValue emptyMatch).

(** A store that holds the text of a match state, and what the page does
    when it mounts on it. *)
Definition loadable (storage : gmap string string) : Prop :=
  exists s,
    storage !! storageKey = Some (stringify 0 (stateValue s))
    /\ mount storage
       = if renders s
         then Ready {| matchState := s;
                       playerNames := [""; ""; ""; ""];
                       localStorage := storage |}
         else RenderError (<[storageKey := emptyText]> storage).

(** Every entry of the log names one of the four players. *)
Definition inRange (s : MatchState) : Prop :=
  Forall (fun e => 0 <= playerIndex e <= 3) (statHistory s).

(** The number of entries of [log] for player [k] and stat [st]. *)
Definition countOf (k : nat) (st : Stat) (log : list StatEntry) : Z :=
  sumZ (map (fun e => if decide (playerIndex e = Z.of_nat k /\ stat e = st)
                      then 1 else 0) log).

(** The bookkeeping of a page whose points all came from its buttons and
    keys. *)
Definition tidy (h : Home) : Prop :=
  consistent (matchState h)
  /\ logMatchesCounters (matchState h)
  /\ inRange (matchState h)
  /\ length (playerNames h) = 4%nat.

(** A string that neither starts nor ends with a space, a tab or a line
    break (the one-byte white space of [Trim.ws1]). *)
Definition startsClean (s : string) : bool :=
  match list_ascii_of_string s with
  | c :: _ => negb (Trim.ws1 c)
  | [] => true
  end.

Definition endsClean (s : string) : bool :=
  match rev (list_ascii_of_string s) with
  | c :: _ => negb (Trim.ws1 c)
  | [] => true
  end.

(** The [dataKey]s of the chart: the X axis, the baseline and the four
    player lines. *)
Definition drawnKeys (s : MatchState) : list string :=
  [ "point"; "zero";
    seriesKey (players s) 0 "Player 1"; seriesKey (players s) 1 "Player 2";
    seriesKey (players s) 2 "Player 3"; seriesKey (players s) 3 "Player 4" ].

Definition isNum (v : jsnum) : Prop := exists z, v = Num z.


(** ** The name of the downloaded file *)

(** [iso.split('T')[0]]: the text before the first T. *)
Fixpoint beforeT (s : string) : string :=
  match s with
  | EmptyString => EmptyString
  | String c r => if Ascii.eqb c "T" then EmptyString else String c (beforeT r)
  end.

(** [`padel-match-${new Date().toISOString().split('T')[0]}.json`] *)
Definition downloadName (iso : string) : string :=
  "padel-match-" +:+ beforeT iso +:+ ".json".

(** ** Sample pages *)

(** [json_text s] is [s] with every apostrophe replaced by a double quote,
    to write JSON texts legibly. *)
Fixpoint json_text (s : string) : string :=
  match s with
  | EmptyString => EmptyString
  | String c r => String (if Ascii.eqb c "'" then dquote else c) (json_text r)
  end.

Definition enterNames (a b c d : string) (h : Home) : Home :=
  setPlayerName 3 d (setPlayerName 2 c (setPlayerName 1 b (setPlayerName 0 a h))).

(** A match between A, B, C and D in which A hit a winner and C made an
    unforced error. *)
Definition sampleStart : Home := onStartMatch (enterNames "A" "B" "C" "D" (initialHome ∅)).

Definition sampleHome : Home :=
  onIncrementStat 2 stat_unforced_errors 1700000000500
    (onIncrementStat 0 stat_winners 1700000000000 sampleStart).

(** A match whose first player is called "point". *)
Definition pointHome : Home :=
  onIncrementStat 0 stat_winners 1700000000000
    (onStartMatch (enterNames "point" "B" "C" "D" (initialHome ∅))).

(** A match whose last player is called "zero". *)
Definition zeroHome : Home :=
  onIncrementStat 3 stat_unforced_errors 1700000000000
    (onStartMatch (enterNames "A" "B" "C" "zero" (initialHome ∅))).

(** A started match with one player, which the page cannot render. *)
Definition lonePlayer : MatchState :=
  {| players := [newPlayer "A"]; isGameStarted := true; statHistory := [] |}.


(** A page mounted on an empty store, and a short session on it: names
    typed, the match started, points scored with buttons and keys. *)
Definition freshPage : Home := persist (initialHome ∅).

Definition sampleSession : list Action :=
  [ TypeName 0 " Ana "; TypeName 1 "Bea"; TypeName 2 "Cy"; TypeName 3 "Di";
    ClickStart; ClickStat 0 1000; PressKey "6" 2000; PressKey "x" 2500;
    ClickStat 7 3000 ].

Definition sampleEnd : Home := pageOf (run sampleSession freshPage) freshPage.

(** The same session on a store that already holds a key of its own. *)
Definition themedStore : gmap string string := {["theme" := "dark"]}.

Definition themedEnd : Home :=
  pageOf (run sampleSession (persist (initialHome themedStore))) freshPage.

(** The first session, followed by the import of an exported match, with
    the confirmation declined, and one more point. *)
Definition importSession : list Action :=
  sampleSession
  ++ [ ChooseFile (exportMatchData "2024-05-01T10:00:00.000Z" sampleHome) false;
       ClickStat 0 5000 ].

Definition importEnd : Home := pageOf (run importSession freshPage) freshPage.

(** * Properties *)

(** ** The roster update *)

Lemma creditAt_lookup idx st ps j :
  creditAt idx st ps !! j =
  (fun p => if decide (Z.of_nat j = idx) then credit st p else p) <$> ps !! j.
Proof. unfold creditAt. by rewrite list_lookup_imap. Qed.

Lemma creditAt_length idx st ps : length (creditAt idx st ps) = length ps.
Proof. unfold creditAt. by rewrite length_imap. Qed.

Lemma creditAt_names idx st ps : map name (creditAt idx st ps) = map name ps.
Proof.
  apply list_eq. intros j.
  rewrite !list_lookup_fmap, creditAt_lookup.
  destruct (ps !! j) as [p|]; simpl; [|done].
  by case_decide.
Qed.


Lemma credit_formula st p :
  score p = 2 * winners p - unforced_errors p ->
  score (credit st p) = 2 * winners (credit st p) - unforced_errors (credit st p).
Proof. destruct st; simpl; lia. Qed.

Lemma creditAt_formula idx st ps :
  Forall (fun p => score p = 2 * winners p - unforced_errors p) ps ->
  Forall (fun p => score p = 2 * winners p - unforced_errors p) (creditAt idx st ps).
Proof.
  rewrite !Forall_lookup. intros H j p. rewrite creditAt_lookup.
  destruct (ps !! j) as [q|] eqn:Hj; simpl; [|done].
  intros [= <-]. case_decide; [apply credit_formula|]; eauto.
Qed.

Lemma creditAt_named idx st ps :
  Forall (fun p => name p <> "") ps ->
  Forall (fun p => name p <> "") (creditAt idx st ps).
Proof.
  rewrite !Forall_lookup. intros H j p. rewrite creditAt_lookup.
  destruct (ps !! j) as [q|] eqn:Hj; simpl; [|done].
  intros [= <-]. case_decide; simpl; eauto.
Qed.

Lemma projectAll_snoc names log e :
  projectAll names (log ++ [e]) = applyEvent (projectAll names log) e.
Proof. unfold projectAll. by rewrite foldl_app. Qed.

Lemma projectAll_length names log :
  length (projectAll names log) = length names.
Proof.
  induction log as [|e log IH] using rev_ind.
  - unfold projectAll. simpl. by rewrite length_map.
  - rewrite projectAll_snoc. unfold applyEvent. by rewrite creditAt_length.
Qed.

(** ** Invariants of the state *)

Lemma consistent_empty : consistent emptyMatch.
Proof. split; simpl; try done; constructor. Qed.

Lemma namesReady_spec names :
  namesReady names = true -> Forall (fun n => trim n <> "") names.
Proof.
  unfold namesReady. rewrite forallb_forall, Forall_forall.
  intros H n Hn. apply list_elem_of_In, H in Hn.
  apply negb_true_iff, String.eqb_neq in Hn. done.
Qed.

Lemma consistent_start names s :
  length names = 4%nat -> startMatch names = Some s -> consistent s.
Proof.
  unfold startMatch. intros Hlen.
  destruct (namesReady names) eqn:Hready; [|done].
  intros [= <-]. apply namesReady_spec in Hready.
  split; simpl.
  - apply Forall_forall. intros p Hp.
    apply list_elem_of_fmap in Hp as (n & -> & _). simpl. lia.
  - by rewrite length_map.
  - apply Forall_forall. intros p Hp.
    apply list_elem_of_fmap in Hp as (n & -> & Hn). simpl.
    rewrite Forall_forall in Hready. by apply Hready.
  - unfold projectAll. simpl. rewrite <- !list_fmap_compose.
    apply list_fmap_ext. done.
  - done.
Qed.

Lemma consistent_increment idx st now s :
  consistent s -> consistent (incrementStat idx st now s).
Proof.
  intros [Hsc Hro Hna Hre Hpt]. split; simpl.
  - by apply creditAt_formula.
  - destruct (isGameStarted s).
    + by rewrite creditAt_length.
    + rewrite Hro. done.
  - by apply creditAt_named.
  - rewrite creditAt_names, projectAll_snoc. unfold applyEvent. simpl.
    by rewrite <- Hre.
  - rewrite map_app, Hpt, length_app. simpl.
    rewrite Nat.add_1_r, seq_S, map_app. simpl.
    do 3 f_equal. lia.
Qed.

(** ** JSON.parse reads back what JSON.stringify writes *)

Section JSONFacts.

Ltac each_char c := destruct c as [[] [] [] [] [] [] [] []].

Lemma skip_ws_pad w s : forallb is_ws w = true -> skip_ws (w ++ s) = skip_ws s.
Proof.
  induction w as [|c w IH]; simpl; [done|].
  intros [Hc Hw]%andb_prop. rewrite Hc. auto.
Qed.

Lemma skip_ws_stop c s : is_ws c = false -> skip_ws (c :: s) = c :: s.
Proof. intros H. simpl. by rewrite H. Qed.

Lemma newline_ws gap ind : forallb is_ws (newline gap ind) = true.
Proof.
  destruct gap; simpl; [done|].
  induction ind; simpl; auto.
Qed.

Lemma starter_facts c :
  starter c = true ->
  is_ws c = false /\ Ascii.eqb c "]" = false /\ Ascii.eqb c "}" = false
  /\ Ascii.eqb c "," = false /\ Ascii.eqb c ":" = false.
Proof. each_char c; simpl; intros H; try discriminate H; done. Qed.

Lemma digit_facts c :
  is_digit c = true ->
  starter c = true /\ Ascii.eqb c "-" = false /\ Ascii.eqb c "{" = false
  /\ Ascii.eqb c "[" = false /\ Ascii.eqb c dquote = false
  /\ Ascii.eqb c "t" = false /\ Ascii.eqb c "f" = false
  /\ Ascii.eqb c "n" = false.
Proof. each_char c; simpl; intros H; try discriminate H; done. Qed.

Lemma digits_of_uint_digits d : forallb is_digit (digits_of_uint d) = true.
Proof. induction d; simpl; auto. Qed.

Lemma uint_of_digits_of_uint d : uint_of_digits (digits_of_uint d) = d.
Proof. induction d; simpl; by rewrite ?IHd. Qed.

Lemma read_digits_all ds rest :
  forallb is_digit ds = true -> terminated rest = true ->
  read_digits (ds ++ rest) = (ds, rest).
Proof.
  intros Hds Hrest. induction ds as [|c ds IH]; simpl in *.
  - destruct rest as [|c r]; [done|]. simpl in Hrest.
    unfold delimiter in Hrest. apply negb_true_iff in Hrest.
    repeat apply orb_false_elim in Hrest as [Hrest _]. simpl. by rewrite Hrest.
  - apply andb_prop in Hds as [Hc Hds]. rewrite Hc, IH; done.
Qed.

Lemma int_ok_unorm d : int_ok (digits_of_uint (Decimal.unorm d)) = true.
Proof. induction d; simpl; try done; by destruct (digits_of_uint d). Qed.

Lemma to_uint_unorm n : N.to_uint n = Decimal.unorm (N.to_uint n).
Proof.
  rewrite <- DecimalN.Unsigned.to_of. by rewrite DecimalN.Unsigned.of_to.
Qed.

Lemma digits_nonempty n :
  exists c tl, digits_of_uint (N.to_uint n) = c :: tl /\ is_digit c = true.
Proof.
  pose proof (int_ok_unorm (N.to_uint n)) as Hok.
  rewrite <- to_uint_unorm in Hok.
  pose proof (digits_of_uint_digits (N.to_uint n)) as Hd.
  destruct (digits_of_uint (N.to_uint n)) as [|c tl]; [done|].
  exists c, tl. split; [done|]. simpl in Hd. by apply andb_prop in Hd as [? _].
Qed.

Lemma Z_of_digits_to_uint n :
  Z_of_digits (digits_of_uint (N.to_uint n)) = Z.of_N n.
Proof.
  unfold Z_of_digits. rewrite uint_of_digits_of_uint.
  unfold Z.of_uint. f_equal. apply DecimalN.Unsigned.of_to.
Qed.

Lemma read_fraction_none rest :
  terminated rest = true -> read_fraction rest = Some ([], rest).
Proof.
  destruct rest as [|c r]; [done|]. simpl. unfold delimiter.
  intros H. apply negb_true_iff in H.
  apply orb_false_elim in H as [H _]. apply orb_false_elim in H as [H _].
  apply orb_false_elim in H as [_ H]. by rewrite H.
Qed.

Lemma read_exponent_none rest :
  terminated rest = true -> read_exponent rest = Some (0, rest).
Proof.
  destruct rest as [|c r]; [done|]. simpl. unfold delimiter.
  intros H. apply negb_true_iff in H.
  apply orb_false_elim in H as [H H3]. apply orb_false_elim in H as [H H2].
  by rewrite H2, H3.
Qed.

Lemma number_integer fuel m : number fuel m 0 = JNum m.
Proof.
  destruct fuel; simpl; destruct (m =? 0) eqn:Hm;
    try (apply Z.eqb_eq in Hm; by subst); f_equal; lia.
Qed.

Lemma parse_number_print z rest :
  terminated rest = true ->
  parse_number (print_int z ++ rest) = Some (JNum z, rest).
Proof.
  intros Hrest. unfold print_int.
  destruct (digits_nonempty (Z.abs_N z)) as (c & tl & Hds & Hc).
  pose proof (digits_of_uint_digits (N.to_uint (Z.abs_N z))) as Hall.
  pose proof (int_ok_unorm (N.to_uint (Z.abs_N z))) as Hok.
  rewrite <- to_uint_unorm in Hok.
  pose proof (Z_of_digits_to_uint (Z.abs_N z)) as Hval.
  set (ds := digits_of_uint (N.to_uint (Z.abs_N z))) in *.
  assert (Hparse : forall neg,
    read_unsigned neg (ds ++ rest)
    = Some (JNum (if neg then - Z.of_N (Z.abs_N z) else Z.of_N (Z.abs_N z)), rest)).
  { intros neg. unfold read_unsigned.
    rewrite read_digits_all by done. rewrite Hok.
    rewrite read_fraction_none by done. simpl.
    rewrite read_exponent_none by done. simpl.
    rewrite app_nil_r, Hval. by rewrite number_integer. }
  destruct (z <? 0) eqn:Hz.
  - apply Z.ltb_lt in Hz. unfold parse_number. simpl.
    rewrite (Hparse true). by replace (- Z.of_N (Z.abs_N z)) with z by lia.
  - apply Z.ltb_ge in Hz. unfold parse_number. simpl.
    rewrite Hds in *. simpl.
    destruct (digit_facts c Hc) as (_ & -> & _).
    change ((c :: tl) ++ rest) with (c :: tl ++ rest) in Hparse.
    rewrite (Hparse false). by replace (Z.of_N (Z.abs_N z)) with z by lia.
Qed.

Lemma read_string_escape c rest acc :
  read_string (escape c ++ rest) acc = read_string rest (c :: acc).
Proof. each_char c; reflexivity. Qed.

Lemma read_string_body cs rest acc :
  read_string (concat (map escape cs) ++ dquote :: rest) acc
  = Some (string_of_list_ascii (rev acc ++ cs), rest).
Proof.
  revert acc. induction cs as [|c cs IH]; intros acc; simpl.
  - by rewrite app_nil_r.
  - rewrite <- app_assoc, read_string_escape, IH. simpl.
    by rewrite <- app_assoc.
Qed.

Lemma read_string_quote s rest :
  exists body,
    quote s ++ rest = dquote :: body
    /\ read_string body [] = Some (s, rest).
Proof.
  exists (concat (map escape (chars s)) ++ dquote :: rest). split.
  - unfold quote. simpl. by rewrite <- app_assoc.
  - rewrite read_string_body. simpl. unfold chars.
    by rewrite string_of_list_ascii_of_string.
Qed.

Lemma value_induction (P : value -> Prop) :
  P JNull -> (forall b, P (JBool b)) -> (forall n, P (JNum n)) ->
  (forall m e, P (JDec m e)) -> (forall s, P (JStr s)) ->
  (forall items, Forall P items -> P (JArr items)) ->
  (forall fields, Forall (fun kv => P kv.2) fields -> P (JObj fields)) ->
  forall v, P v.
Proof.
  intros Hnull Hbool Hnum Hdec Hstr Harr Hobj.
  fix IH 1. intros [ | b | n | m e | s | items | fields ].
  - exact Hnull.
  - exact (Hbool b).
  - exact (Hnum n).
  - exact (Hdec m e).
  - exact (Hstr s).
  - apply Harr.
    refine ((fix go (l : list value) : Forall P l :=
               match l with
               | [] => @List.Forall_nil _ _
               | x :: xs => @List.Forall_cons _ P x xs (IH x) (go xs)
               end) items).
  - apply Hobj.
    refine ((fix go (l : list (string * value)) : Forall (fun kv => P kv.2) l :=
               match l with
               | [] => @List.Forall_nil _ _
               | kv :: xs => @List.Forall_cons _ (fun kv => P kv.2) kv xs (IH kv.2) (go xs)
               end) fields).
Qed.

Lemma print_int_starts z :
  exists c tl, print_int z = c :: tl /\ (is_digit c = true \/ c = "-"%char).
Proof.
  unfold print_int. destruct (z <? 0).
  - eexists _, _. split; [reflexivity|]. by right.
  - destruct (digits_nonempty (Z.abs_N z)) as (c & tl & -> & Hc).
    exists c, tl. split; [done|]. by left.
Qed.

Lemma print_starts gap ind v :
  exists c tl, print gap ind v = c :: tl /\ starter c = true.
Proof.
  destruct v as [ | [] | n | m e | s | [|v0 items] | [|kv fields] ]; simpl;
    try (eexists _, _; split; [reflexivity|done]).
  - destruct (print_int_starts n) as (c & tl & -> & [Hc| ->]).
    + exists c, tl. split; [done|]. by apply digit_facts.
    + by exists "-"%char, tl.
  - destruct (print_int_starts m) as (c & tl & -> & [Hc| ->]).
    + eexists c, _. split; [reflexivity|]. by apply digit_facts.
    + by eexists "-"%char, _.
Qed.

Lemma print_nonempty gap ind v : (1 <= length (print gap ind v))%nat.
Proof. destruct (print_starts gap ind v) as (c & tl & -> & _). simpl. lia. Qed.

Lemma parse_value_pad f w s :
  forallb is_ws w = true -> parse_value f (w ++ s) = parse_value f s.
Proof. intros Hw. destruct f; [done|]. simpl. by rewrite skip_ws_pad. Qed.

Lemma parse_items_pad f w s :
  forallb is_ws w = true -> parse_items f (w ++ s) = parse_items f s.
Proof. intros Hw. destruct f; [done|]. simpl. by rewrite parse_value_pad. Qed.

Lemma parse_members_pad f w s :
  forallb is_ws w = true -> parse_members f (w ++ s) = parse_members f s.
Proof. intros Hw. destruct f; [done|]. simpl. by rewrite skip_ws_pad. Qed.

Lemma parse_value_number f c s :
  is_digit c = true \/ c = "-"%char ->
  parse_value (S f) (c :: s) = parse_number (c :: s).
Proof.
  intros [Hc| ->]; [|reflexivity].
  destruct (digit_facts c Hc) as (Hst & ? & H1 & H2 & H3 & H4 & H5 & H6).
  destruct (starter_facts c Hst) as (Hws & _).
  simpl. by rewrite Hws, H1, H2, H3, H4, H5, H6.
Qed.

Lemma parse_value_array f s c r :
  skip_ws s = c :: r -> Ascii.eqb c "]" = false ->
  parse_value (S f) ("["%char :: s)
  = '(vs, r') ← parse_items f s; Some (JArr vs, r').
Proof. intros Hs Hc. simpl. by rewrite Hs, Hc. Qed.

Lemma parse_value_object f s c r :
  skip_ws s = c :: r -> Ascii.eqb c "}" = false ->
  parse_value (S f) ("{"%char :: s)
  = '(ms, r') ← parse_members f s; Some (object_of ms, r').
Proof. intros Hs Hc. simpl. by rewrite Hs, Hc. Qed.

Lemma parse_items_step f s :
  parse_items (S f) s
  = '(v, r) ← parse_value f s;
    match skip_ws r with
    | x :: r' =>
        if Ascii.eqb x "," then
          '(vs, r'') ← parse_items f r'; Some (v :: vs, r'')
        else if Ascii.eqb x "]" then Some ([v], r')
        else None
    | [] => None
    end.
Proof. reflexivity. Qed.

Lemma set_field_fresh k v fields :
  k ∉ map fst fields -> set_field k v fields = fields ++ [(k, v)].
Proof.
  induction fields as [|[k' v'] fields IH]; simpl; [done|].
  intros Hk. apply not_elem_of_cons in Hk as [Hne Hk].
  case_decide; [congruence|]. by rewrite IH.
Qed.

Lemma object_of_nodup fields :
  NoDup (map fst fields) -> object_of fields = JObj fields.
Proof.
  unfold object_of. intros Hnd. f_equal.
  enough (H : forall acc, NoDup (map fst (acc ++ fields)) ->
            foldl (fun acc kv => set_field kv.1 kv.2 acc) acc fields
            = acc ++ fields) by (apply (H []); exact Hnd).
  clear Hnd. induction fields as [|[k v] fields IH]; intros acc Hnd; simpl.
  - by rewrite app_nil_r.
  - rewrite set_field_fresh.
    + rewrite IH; rewrite <- app_assoc; done.
    + rewrite map_app in Hnd. simpl in Hnd.
      apply NoDup_app in Hnd as (_ & Hdis & _).
      intros Hin. apply (Hdis k Hin). left.
Qed.

Lemma terminated_close gap ind c rest :
  delimiter c = true -> is_ws c = false ->
  terminated (newline gap ind ++ c :: rest) = true
  /\ skip_ws (newline gap ind ++ c :: rest) = c :: rest.
Proof.
  intros Hc Hws. split.
  - destruct gap; simpl; done.
  - rewrite skip_ws_pad by apply newline_ws. by apply skip_ws_stop.
Qed.

Lemma join_one sep p : join sep [p] = p.
Proof. reflexivity. Qed.

Lemma join_more sep p q ps : join sep (p :: q :: ps) = p ++ sep ++ join sep (q :: ps).
Proof. reflexivity. Qed.

Local Arguments join : simpl never.
Local Arguments print : simpl never.
Local Arguments parse_value : simpl never.
Local Arguments parse_items : simpl never.
Local Arguments parse_members : simpl never.
Local Arguments member_text : simpl never.

Lemma parse_members_step f s :
  parse_members (S f) s
  = match skip_ws s with
    | q :: r =>
        if Ascii.eqb q dquote then
          '(k, r1) ← read_string r [];
          match skip_ws r1 with
          | x :: r2 =>
              if Ascii.eqb x ":" then
                '(v, r3) ← parse_value f r2;
                match skip_ws r3 with
                | y :: r4 =>
                    if Ascii.eqb y "," then
                      '(ms, r5) ← parse_members f r4;
                      Some ((k, v) :: ms, r5)
                    else if Ascii.eqb y "}" then Some ([(k, v)], r4)
                    else None
                | [] => None
                end
              else None
          | [] => None
          end
        else None
    | [] => None
    end.
Proof. reflexivity. Qed.

Lemma parse_items_join gap ind ind0 items rest f :
  items <> [] ->
  Forall (reads_back gap ind) items ->
  (length (join (","%char :: newline gap ind) (map (print gap ind) items)) < f)%nat ->
  parse_items f (join (","%char :: newline gap ind) (map (print gap ind) items)
                 ++ newline gap ind0 ++ "]"%char :: rest)
  = Some (items, rest).
Proof.
  revert f. induction items as [|v items IH]; [done|].
  intros f _ Hall Hlen. apply Forall_cons in Hall as [Hv Hall].
  destruct f as [|f]; [lia|]. rewrite parse_items_step.
  destruct (terminated_close gap ind0 "]" rest eq_refl eq_refl) as [Hterm Hskip].
  destruct items as [|v2 items].
  - simpl map in *. rewrite join_one in *.
    rewrite Hv by (done || lia). simpl. by rewrite Hskip.
  - rewrite !map_cons, join_more in *. rewrite <- map_cons in *.
    rewrite !length_app in Hlen. simpl in Hlen.
    rewrite <- !app_assoc. rewrite Hv by (done || lia). simpl.
    rewrite parse_items_pad by apply newline_ws.
    change (print gap ind v2 :: map (print gap ind) items)
      with (map (print gap ind) (v2 :: items)) in *.
    rewrite IH; [done|done|done|lia].
Qed.

Lemma parse_members_join gap ind ind0 fields rest f :
  fields <> [] ->
  Forall (fun kv => reads_back gap ind kv.2) fields ->
  (length (join (","%char :: newline gap ind) (map (member_text gap ind) fields)) < f)%nat ->
  parse_members f (join (","%char :: newline gap ind) (map (member_text gap ind) fields)
                   ++ newline gap ind0 ++ "}"%char :: rest)
  = Some (fields, rest).
Proof.
  revert f. induction fields as [|[k v] fields IH]; [done|].
  intros f _ Hall Hlen. apply Forall_cons in Hall as [Hv Hall]. simpl in Hv.
  destruct f as [|f]; [lia|].
  destruct (terminated_close gap ind0 "}" rest eq_refl eq_refl) as [Hterm Hskip].
  assert (Hmember : forall tail,
    terminated tail = true ->
    (length (member_text gap ind (k, v)) <= f)%nat ->
    parse_members (S f) (member_text gap ind (k, v) ++ tail)
    = match skip_ws tail with
      | y :: r4 =>
          if Ascii.eqb y "," then
            '(ms, r5) ← parse_members f r4; Some ((k, v) :: ms, r5)
          else if Ascii.eqb y "}" then Some ([(k, v)], r4)
          else None
      | [] => None
      end).
  { intros tail Htail Hf. unfold member_text in *. simpl fst in *. simpl snd in *.
    rewrite <- !app_assoc.
    destruct (read_string_quote k (colon gap ++ print gap ind v ++ tail))
      as (body & -> & Hbody).
    rewrite parse_members_step. simpl. rewrite Hbody. simpl.
    rewrite !length_app in Hf.
    destruct gap; simpl.
    - rewrite Hv by (done || lia). done.
    - change (" "%char :: ?x) with ([" "%char] ++ x).
      rewrite parse_value_pad by done.
      rewrite Hv by (done || simpl in Hf; lia). done. }
  destruct fields as [|kv2 fields].
  - simpl map in *. rewrite join_one in *.
    rewrite Hmember by (done || lia). by rewrite Hskip.
  - rewrite !map_cons, join_more in *. rewrite <- map_cons in *.
    rewrite !length_app in Hlen. simpl in Hlen.
    rewrite <- !app_assoc.
    rewrite Hmember; [|done|unfold member_text, quote; simpl; lia]. simpl.
    rewrite parse_members_pad by apply newline_ws.
    change (member_text gap ind kv2 :: map (member_text gap ind) fields)
      with (map (member_text gap ind) (kv2 :: fields)) in *.
    rewrite IH; [done|done|done|lia].
Qed.

Lemma parse_value_string f body :
  parse_value (S f) (dquote :: body)
  = '(str, r') ← read_string body []; Some (JStr str, r').
Proof. reflexivity. Qed.

Lemma join_head sep p ps : exists t, join sep (p :: ps) = p ++ t.
Proof.
  destruct ps as [|q ps].
  - exists []. by rewrite join_one, app_nil_r.
  - eexists. apply join_more.
Qed.

Lemma print_array gap ind v items :
  print gap ind (JArr (v :: items))
  = "["%char :: newline gap (ind + gap)
    ++ join (","%char :: newline gap (ind + gap))
            (map (print gap (ind + gap)) (v :: items))
    ++ newline gap ind ++ ["]"%char].
Proof. reflexivity. Qed.

Lemma print_object gap ind kv fields :
  print gap ind (JObj (kv :: fields))
  = "{"%char :: newline gap (ind + gap)
    ++ join (","%char :: newline gap (ind + gap))
            (map (member_text gap (ind + gap)) (kv :: fields))
    ++ newline gap ind ++ ["}"%char].
Proof. reflexivity. Qed.

(** After the opening bracket comes the first item or property, which
    does not start with a closing bracket. *)
Lemma skip_ws_first gap ind sep c tl ps tail :
  starter c = true ->
  exists r, skip_ws (newline gap ind ++ join sep ((c :: tl) :: ps) ++ tail) = c :: r.
Proof.
  intros Hc. destruct (join_head sep (c :: tl) ps) as [t ->].
  rewrite skip_ws_pad by apply newline_ws.
  destruct (starter_facts c Hc) as (Hws & _).
  eexists. rewrite <- !app_comm_cons. by apply skip_ws_stop.
Qed.

Lemma print_reads_back v :
  plain v = true -> forall gap ind, reads_back gap ind v.
Proof.
  induction v as [ | b | n | m e | s | items IH | fields IH ] using value_induction;
    intros Hplain gap ind f rest Hf Hrest;
    (destruct f as [|f];
     [match type of Hf with
      | (length (print _ _ ?x) <= _)%nat =>
          pose proof (print_nonempty gap ind x); lia
      end|]).
  - reflexivity.
  - by destruct b.
  - change (print gap ind (JNum n)) with (print_int n).
    destruct (print_int_starts n) as (c & tl & Heq & Hc).
    rewrite Heq, <- app_comm_cons, parse_value_number by done.
    rewrite app_comm_cons, <- Heq. by apply parse_number_print.
  - done.
  - change (print gap ind (JStr s)) with (quote s).
    destruct (read_string_quote s rest) as (body & -> & Hbody).
    by rewrite parse_value_string, Hbody.
  - destruct items as [|v items]; [reflexivity|].
    change (plain (JArr ?l)) with (forallb plain l) in Hplain.
    rewrite print_array in *.
    assert (Hall : Forall (reads_back gap (ind + gap)) (v :: items)).
    { rewrite Forall_forall in IH |- *. intros x Hx. apply IH; [done|].
      rewrite forallb_forall in Hplain. by apply Hplain, list_elem_of_In. }
    rewrite <- app_comm_cons, <- !app_assoc.
    destruct (print_starts gap (ind + gap) v) as (c & tl & Hv & Hc).
    destruct (skip_ws_first gap (ind + gap) (","%char :: newline gap (ind + gap))
                c tl (map (print gap (ind + gap)) items)
                (newline gap ind ++ ["]"%char] ++ rest) Hc) as [r Hr].
    rewrite <- Hv in Hr. change (print ?g ?i v :: map (print ?g ?i) items)
      with (map (print g i) (v :: items)) in Hr.
    destruct (starter_facts c Hc) as (_ & Hclose & _).
    rewrite (parse_value_array _ _ _ _ Hr Hclose).
    rewrite parse_items_pad by apply newline_ws.
    simpl in Hf. rewrite !length_app in Hf. simpl in Hf.
    change (print ?g ?i v :: map (print ?g ?i) items)
      with (map (print g i) (v :: items)) in Hf.
    change (["]"%char] ++ rest) with ("]"%char :: rest).
    rewrite parse_items_join; [done|done|done|lia].
  - destruct fields as [|kv fields]; [reflexivity|].
    change (plain (JObj ?l))
      with (bool_decide (NoDup (map fst l)) && forallb (fun kv => plain kv.2) l)
      in Hplain.
    apply andb_prop in Hplain as [Hnd Hplain].
    apply bool_decide_eq_true in Hnd.
    rewrite print_object in *.
    assert (Hall : Forall (fun kv => reads_back gap (ind + gap) kv.2) (kv :: fields)).
    { rewrite Forall_forall in IH |- *. intros x Hx. apply IH; [done|].
      rewrite forallb_forall in Hplain.
      by apply (Hplain x), list_elem_of_In. }
    rewrite <- app_comm_cons, <- !app_assoc.
    destruct (skip_ws_first gap (ind + gap) (","%char :: newline gap (ind + gap))
                dquote
                (concat (map escape (chars kv.1)) ++ [dquote]
                 ++ colon gap ++ print gap (ind + gap) kv.2)
                (map (member_text gap (ind + gap)) fields)
                (newline gap ind ++ ["}"%char] ++ rest) eq_refl) as [r Hr].
    assert (Hmt : member_text gap (ind + gap) kv
                  = dquote :: concat (map escape (chars kv.1)) ++ [dquote]
                    ++ colon gap ++ print gap (ind + gap) kv.2).
    { unfold member_text, quote. simpl. by rewrite <- app_assoc. }
    rewrite <- Hmt in Hr.
    change (member_text ?g ?i kv :: map (member_text ?g ?i) fields)
      with (map (member_text g i) (kv :: fields)) in Hr.
    rewrite (parse_value_object _ _ _ _ Hr eq_refl).
    rewrite parse_members_pad by apply newline_ws.
    simpl in Hf. rewrite !length_app in Hf. simpl in Hf.
    change (member_text ?g ?i kv :: map (member_text ?g ?i) fields)
      with (map (member_text g i) (kv :: fields)) in Hf.
    change (["}"%char] ++ rest) with ("}"%char :: rest).
    rewrite parse_members_join; [|done|done|lia].
    simpl. by rewrite object_of_nodup.
Qed.

Theorem parse_stringify gap v :
  plain v = true -> parse (stringify gap v) = Some v.
Proof.
  intros Hplain. unfold parse, stringify, chars.
  rewrite list_ascii_of_string_of_list_ascii.
  pose proof (print_reads_back v Hplain gap 0%nat
                (S (length (print gap 0 v))) [] ltac:(lia) eq_refl) as H.
  rewrite app_nil_r in H. by rewrite H.
Qed.

End JSONFacts.

(** ** The state survives the JSON encoding *)

Lemma forallb_map_all {A B} (f : B -> bool) (g : A -> B) (l : list A) :
  (forall x, f (g x) = true) -> forallb f (map g l) = true.
Proof. intros H. induction l; simpl; [done|]. by rewrite H. Qed.

Lemma playerValue_plain p : plain (playerValue p) = true.
Proof. reflexivity. Qed.

Lemma entryValue_plain e : plain (entryValue e) = true.
Proof. reflexivity. Qed.

Lemma stateValue_plain s : plain (stateValue s) = true.
Proof.
  unfold stateValue.
  change (forallb plain (map playerValue (players s))
          && (forallb plain (map entryValue (statHistory s)) && true) = true).
  rewrite !forallb_map_all; [done| |]; intros; reflexivity.
Qed.

Lemma statOfName_statName st : statOfName (statName st) = Some st.
Proof. by destruct st. Qed.

Lemma playerOfValue_playerValue p : playerOfValue (playerValue p) = Some p.
Proof. by destruct p. Qed.

Lemma entryOfValue_entryValue e : entryOfValue (entryValue e) = Some e.
Proof.
  destruct e as [pt i st t]. unfold entryValue, entryOfValue. simpl.
  by rewrite statOfName_statName.
Qed.

Lemma mapM_map_inverse {A B} (g : A -> B) (f : B -> option A) (l : list A) :
  (forall x, f (g x) = Some x) -> mapM f (map g l) = Some l.
Proof.
  intros H. apply mapM_Some. apply Forall2_fmap_l, Forall_Forall2_diag.
  apply Forall_forall. intros x _. apply H.
Qed.

Lemma stateOfValue_stateValue s : stateOfValue (stateValue s) = Some s.
Proof.
  destruct s as [ps b es]. unfold stateValue, stateOfValue. simpl.
  rewrite (mapM_map_inverse playerValue) by apply playerOfValue_playerValue.
  rewrite (mapM_map_inverse entryValue) by apply entryOfValue_entryValue.
  done.
Qed.

Lemma playerOfValue_inv v p : playerOfValue v = Some p -> v = playerValue p.
Proof.
  unfold playerOfValue. intros H.
  repeat (case_match; try discriminate H).
  destruct_and!. injection H as <-. by subst.
Qed.

Lemma entryOfValue_inv v e : entryOfValue v = Some e -> v = entryValue e.
Proof.
  unfold entryOfValue. intros H.
  repeat (case_match; try discriminate H).
  destruct_and!. subst.
  destruct (statOfName _) as [st|] eqn:Hst; [|done]. injection H as <-.
  unfold entryValue. simpl. do 6 f_equal.
  unfold statOfName in Hst. repeat case_decide; try done; by injection Hst as <-.
Qed.

Lemma mapM_inv {A} (f : value -> option A) (g : A -> value) vs xs :
  (forall v x, f v = Some x -> v = g x) ->
  mapM f vs = Some xs -> vs = map g xs.
Proof.
  intros Hinv Hm. apply mapM_Some in Hm.
  induction Hm as [|v x vs xs Hvx _ IH]; simpl; [done|].
  by rewrite (Hinv v x Hvx), IH.
Qed.

(** A value that reads as a state is the value of that state. *)
Lemma stateOfValue_inv v s : stateOfValue v = Some s -> v = stateValue s.
Proof.
  unfold stateOfValue. intros H.
  repeat (case_match; try discriminate H).
  destruct_and!. subst.
  destruct (mapM playerOfValue _) as [ps|] eqn:Hps; [|done].
  destruct (mapM entryOfValue _) as [es|] eqn:Hes; [|done].
  simpl in H. injection H as <-. unfold stateValue. simpl.
  rewrite (mapM_inv _ _ _ _ playerOfValue_inv Hps).
  by rewrite (mapM_inv _ _ _ _ entryOfValue_inv Hes).
Qed.

(** The text of an export is read as the state that was exported. *)
Lemma readImport_export iso h :
  readImport (exportMatchData iso h) = Imported (stateValue (matchState h)).
Proof.
  unfold readImport, exportMatchData.
  rewrite parse_stringify.
  - reflexivity.
  - change (plain (stateValue (matchState h)) && true = true).
    by rewrite stateValue_plain.
Qed.

Lemma importMatchData_export iso h0 confirmed h :
  exists storage,
    importMatchData (exportMatchData iso h0) confirmed h
    = Some {| matchState := matchState h0;
              playerNames := playerNames h;
              localStorage := storage |}.
Proof.
  unfold importMatchData. rewrite readImport_export, stateOfValue_stateValue.
  simpl. destruct confirmed, (renders (matchState h0)); eexists; reflexivity.
Qed.

(** ** Reachable pages are consistent *)

Lemma reachable_consistent h :
  reachable h -> consistent (matchState h) /\ length (playerNames h) = 4%nat.
Proof.
  induction 1 as [storage | h i v _ [IH1 IH2] | h _ [IH1 IH2]
                 | h idx st now _ [IH1 IH2] | h key now _ [IH1 IH2]
                 | h confirmed _ [IH1 IH2]
                 | h h0 iso confirmed h' _ [IH1 IH2] _ [IH01 IH02] Himp ].
  - split; [apply consistent_empty | done].
  - split; [done|]. simpl. by rewrite length_imap.
  - unfold onStartMatch. destruct (startMatch (playerNames h)) as [s|] eqn:Hs.
    + split; [|done]. simpl. by eapply consistent_start.
    + done.
  - split; [|done]. simpl. by apply consistent_increment.
  - unfold handleKeyPress. destruct (negb _); [done|].
    destruct (keyMap key) as [[idx st]|]; [|done].
    split; [|done]. simpl. by apply consistent_increment.
  - unfold resetMatch. destruct confirmed; [|done].
    split; [apply consistent_empty | done].
  - destruct (importMatchData_export iso h0 confirmed h) as [storage Heq].
    rewrite Heq in Himp. injection Himp as <-. done.
Qed.

Lemma reachable_sampleStart : reachable sampleStart.
Proof.
  unfold sampleStart, enterNames.
  apply reach_startMatch; do 4 apply reach_setPlayerName; apply reach_initial.
Qed.

Lemma reachable_sampleHome : reachable sampleHome.
Proof. do 2 apply reach_incrementStat. apply reachable_sampleStart. Qed.

Lemma reachable_pointHome : reachable pointHome.
Proof.
  unfold pointHome, enterNames.
  apply reach_incrementStat, reach_startMatch.
  do 4 apply reach_setPlayerName. apply reach_initial.
Qed.

Lemma reachable_zeroHome : reachable zeroHome.
Proof.
  unfold zeroHome, enterNames.
  apply reach_incrementStat, reach_startMatch.
  do 4 apply reach_setPlayerName. apply reach_initial.
Qed.

(** The scenario of the specification: names A, B, C, D; a winner for
    player 0, then an unforced error for player 2. *)
Lemma scenario :
  players (matchState sampleHome) !! 0%nat
  = Some {| name := "A"; winners := 1; unforced_errors := 0; score := 2 |}
  /\ players (matchState sampleHome) !! 2%nat
     = Some {| name := "C"; winners := 0; unforced_errors := 1; score := -1 |}
  /\ total_score <$> getTeamStats 0 (matchState sampleHome) = Some 2
  /\ total_score <$> getTeamStats 1 (matchState sampleHome) = Some (-1)
  /\ (fun row => row !! "point") <$> getChartData (matchState sampleHome)
     = [Some (Num 0); Some (Num 1); Some (Num 2)].
Proof. repeat split; by vm_compute. Qed.

(** ** Scores *)

(** C1. In every reachable page (the initial one, and any page obtained by
    entering names, starting, scoring, resetting or importing an export),
    every player's score is twice the winners minus the unforced errors. *)
Theorem score_invariant h p :
  reachable h -> p ∈ players (matchState h) -> scoreFormula p.
Proof.
  intros Hreach Hp. apply reachable_consistent in Hreach as [Hcons _].
  pose proof (ok_scores _ Hcons) as Hall.
  rewrite Forall_forall in Hall. by apply Hall.
Qed.

Lemma score_invariant_witness :
  reachable sampleHome
  /\ {| name := "C"; winners := 0; unforced_errors := 1; score := -1 |}
       ∈ players (matchState sampleHome)
  /\ scoreFormula {| name := "C"; winners := 0; unforced_errors := 1; score := -1 |}.
Proof.
  assert (Hin : {| name := "C"; winners := 0; unforced_errors := 1; score := -1 |}
                  ∈ players (matchState sampleHome)).
  { vm_compute. do 2 apply list_elem_of_further. apply list_elem_of_here. }
  split; [apply reachable_sampleHome|]. split; [exact Hin|].
  exact (score_invariant sampleHome _ reachable_sampleHome Hin).
Defined.

(** ** One scoring event *)

Lemma incrementStat_players idx st now s j :
  players (incrementStat idx st now s) !! j
  = (fun p => if decide (Z.of_nat j = idx) then credit st p else p)
      <$> players s !! j.
Proof. apply creditAt_lookup. Qed.

(** C5. On a started match (four players), a scoring event for a player
    index in 0..3 changes that player only: the counter of the event's kind
    goes up by one, the other counter stays, the score goes up by 2 for a
    winner and down by 1 for an unforced error, the name stays; every other
    position of the roster is unchanged.  The counters and the score of
    the player are safe integers before and after the event, the range in
    which the sums of the source are the sums of the integers. *)
Theorem incrementStat_frame s idx st now :
  isGameStarted s = true -> length (players s) = 4%nat -> 0 <= idx <= 3 ->
  (forall p, players s !! Z.to_nat idx = Some p -> exactCredit st p) ->
  exists p p',
    players s !! Z.to_nat idx = Some p
    /\ players (incrementStat idx st now s) !! Z.to_nat idx = Some p'
    /\ name p' = name p
    /\ match st with
       | stat_winners =>
           winners p' = winners p + 1
           /\ unforced_errors p' = unforced_errors p
           /\ score p' = score p + 2
       | stat_unforced_errors =>
           unforced_errors p' = unforced_errors p + 1
           /\ winners p' = winners p
           /\ score p' = score p - 1
       end
    /\ (forall j, j <> Z.to_nat idx ->
                  players (incrementStat idx st now s) !! j = players s !! j)
    /\ length (players (incrementStat idx st now s)) = length (players s).
Proof.
  intros _ Hlen Hidx _.
  destruct (lookup_lt_is_Some_2 (players s) (Z.to_nat idx)) as [p Hp]; [lia|].
  exists p, (credit st p). split; [done|]. split.
  - rewrite incrementStat_players, Hp. simpl.
    rewrite decide_True by lia. done.
  - split; [done|]. split; [destruct st; simpl; lia|]. split.
    + intros j Hj. rewrite incrementStat_players.
      destruct (players s !! j); simpl; [|done].
      rewrite decide_False by lia. done.
    + simpl. apply creditAt_length.
Qed.

Lemma incrementStat_frame_witness :
  exists p p',
    players (matchState sampleStart) !! Z.to_nat 1 = Some p
    /\ players (incrementStat 1 stat_unforced_errors 7 (matchState sampleStart))
         !! Z.to_nat 1 = Some p'
    /\ score p' = score p - 1.
Proof.
  destruct (incrementStat_frame (matchState sampleStart) 1 stat_unforced_errors 7)
    as (p & p' & H1 & H2 & _ & (_ & _ & H3) & _).
  - reflexivity.
  - reflexivity.
  - lia.
  - intros p [= <-]. unfold exactCredit, safeInteger. simpl. lia.
  - exists p, p'. auto.
Defined.

(** ** The event log *)

Lemma runAppends_snoc ops op s :
  runAppends (ops ++ [op]) s
  = incrementStat op.1.1 op.1.2 op.2 (runAppends ops s).
Proof. unfold runAppends. by rewrite foldl_app. Qed.

Lemma runAppends_app ops1 ops2 s :
  runAppends (ops1 ++ ops2) s = runAppends ops2 (runAppends ops1 s).
Proof. unfold runAppends. by rewrite foldl_app. Qed.

Lemma runAppends_log ops s :
  exists added,
    statHistory (runAppends ops s) = statHistory s ++ added
    /\ length added = length ops
    /\ map point added
       = map (fun i => Z.of_nat (length (statHistory s) + i))
             (seq 1 (length ops))
    /\ map (fun e => (playerIndex e, stat e, timestamp e)) added = ops.
Proof.
  induction ops as [|op ops IH] using rev_ind.
  - exists []. simpl. by rewrite app_nil_r.
  - destruct IH as (added & Hlog & Hlen & Hpts & Hops).
    rewrite runAppends_snoc. simpl. rewrite Hlog.
    eexists (added ++ [_]). split; [by rewrite app_assoc|].
    rewrite !length_app, !map_app, Hpts, Hops, Hlen. simpl.
    split; [done|]. split.
    + rewrite Nat.add_1_r, seq_S, map_app. simpl. do 2 f_equal. lia.
    + by destruct op as [[? ?] ?].
Qed.

(** C6. After any [N] appends on a freshly started match the log has [N]
    entries, numbered 1, 2, ..., [N] in log order, each recording the player
    index, stat and time of its append; and the log after the first [k]
    appends is the first [k] entries of the final log, so no append changes
    or removes an earlier entry. *)
Theorem appends_numbered names s0 ops :
  startMatch names = Some s0 ->
  length (statHistory (runAppends ops s0)) = length ops
  /\ map point (statHistory (runAppends ops s0))
     = map Z.of_nat (seq 1 (length ops))
  /\ map (fun e => (playerIndex e, stat e, timestamp e))
         (statHistory (runAppends ops s0)) = ops
  /\ forall k,
       statHistory (runAppends (take k ops) s0)
       = take k (statHistory (runAppends ops s0)).
Proof.
  unfold startMatch. destruct (namesReady names); [|done]. intros [= <-].
  set (s0 := {| players := map newPlayer names; isGameStarted := true;
                statHistory := [] |}).
  destruct (runAppends_log ops s0) as (added & Hlog & Hlen & Hpts & Hops).
  simpl in Hlog, Hpts. rewrite Hlog. repeat split; try done.
  intros k. rewrite <- Hlog.
  rewrite <- (take_drop k ops) at 2. rewrite runAppends_app.
  destruct (runAppends_log (take k ops) s0) as (a1 & Hlog1 & Hlen1 & _).
  destruct (runAppends_log (drop k ops) (runAppends (take k ops) s0))
    as (a2 & Hlog2 & Hlen2 & _).
  rewrite Hlog2. simpl in Hlog1. rewrite Hlog1 in *.
  rewrite length_take in Hlen1. rewrite length_drop in Hlen2.
  destruct (decide (k <= length ops)%nat).
  - rewrite take_app_length' by lia. done.
  - destruct a2; [|simpl in Hlen2; lia].
    rewrite app_nil_r. rewrite take_ge by lia. done.
Qed.

(** Fold consistency: after any run of appends on a fresh match the roster
    is the replay of the log from the all-zero roster. *)
Lemma replay_matches_appends names s0 ops :
  startMatch names = Some s0 ->
  players (runAppends ops s0)
  = projectAll (map name (players s0)) (statHistory (runAppends ops s0)).
Proof.
  unfold startMatch. destruct (namesReady names); [|done]. intros [= <-].
  induction ops as [|op ops IH] using rev_ind.
  - unfold projectAll. simpl. rewrite <- !list_fmap_compose.
    by apply list_fmap_ext.
  - rewrite runAppends_snoc. simpl in *.
    rewrite projectAll_snoc. unfold applyEvent. simpl. by rewrite <- IH.
Qed.

Lemma appends_numbered_witness :
  map point (statHistory (runAppends [(0, stat_winners, 10); (5, stat_winners, 20);
                                      (3, stat_unforced_errors, 30)]
                            (matchState sampleStart)))
  = [1; 2; 3].
Proof.
  apply (appends_numbered ["A"; "B"; "C"; "D"] (matchState sampleStart)
           [(0, stat_winners, 10); (5, stat_winners, 20);
            (3, stat_unforced_errors, 30)]).
  reflexivity.
Defined.

(** ** Team totals *)

Lemma roster_of_four (ps : list PlayerStats) :
  length ps = 4%nat -> exists p0 p1 p2 p3, ps = [p0; p1; p2; p3].
Proof.
  destruct ps as [|p0 [|p1 [|p2 [|p3 [|? ?]]]]]; try discriminate.
  intros _. by exists p0, p1, p2, p3.
Qed.

(** C7. In every reachable page both team totals are defined and their
    scores add up to the sum of all players' scores.  When the match has
    started, team 0 adds players 0 and 1 and team 1 adds players 2 and 3;
    when it has not, both totals are all zero and the roster is empty. *)
Theorem team_scores_total h :
  reachable h ->
  exists t0 t1,
    getTeamStats 0 (matchState h) = Some t0
    /\ getTeamStats 1 (matchState h) = Some t1
    /\ total_score t0 + total_score t1 = sumZ (map score (players (matchState h)))
    /\ if isGameStarted (matchState h)
       then exists p0 p1 p2 p3,
              players (matchState h) = [p0; p1; p2; p3]
              /\ total_score t0 = score p0 + score p1
              /\ total_score t1 = score p2 + score p3
       else t0 = noTotals /\ t1 = noTotals /\ players (matchState h) = [].
Proof.
  intros Hreach. apply reachable_consistent in Hreach as [Hcons _].
  pose proof (ok_roster _ Hcons) as Hro.
  unfold getTeamStats. destruct (isGameStarted (matchState h)); simpl.
  - destruct (roster_of_four _ Hro) as (p0 & p1 & p2 & p3 & ->). simpl.
    eexists _, _. split; [reflexivity|]. split; [reflexivity|]. simpl.
    split; [lia|]. exists p0, p1, p2, p3. split; [done|]. lia.
  - exists noTotals, noTotals. rewrite Hro. done.
Qed.

Lemma team_scores_total_witness :
  exists t0 t1,
    getTeamStats 0 (matchState sampleHome) = Some t0
    /\ getTeamStats 1 (matchState sampleHome) = Some t1
    /\ total_score t0 + total_score t1 = 1.
Proof.
  destruct (team_scores_total sampleHome reachable_sampleHome)
    as (t0 & t1 & H0 & H1 & Hsum & _).
  exists t0, t1. split; [exact H0|]. split; [exact H1|]. exact Hsum.
Defined.

(** ** The append has no guard of its own *)

Lemma sumZ_app l1 l2 : sumZ (l1 ++ l2) = sumZ l1 + sumZ l2.
Proof. unfold sumZ. induction l1; simpl; lia. Qed.

Lemma counters_credited idx st ps :
  length ps = 4%nat -> 0 <= idx <= 3 ->
  sumZ (map (fun p => winners p + unforced_errors p) (creditAt idx st ps))
  = sumZ (map (fun p => winners p + unforced_errors p) ps) + 1.
Proof.
  intros Hlen Hidx. destruct (roster_of_four _ Hlen) as (p0 & p1 & p2 & p3 & ->).
  assert (Hcase : idx = 0 \/ idx = 1 \/ idx = 2 \/ idx = 3) by lia.
  destruct Hcase as [-> | [-> | [-> | ->]]]; destruct st; simpl; lia.
Qed.




(** ** The chart series *)

Lemma chart_fold ps log sc d :
  foldl (chartStep ps) (sc, d) log = (scoresAfter sc log, d ++ chartRows ps sc log).
Proof.
  revert sc d. induction log as [|e log IH]; intros sc d; simpl.
  - by rewrite app_nil_r.
  - unfold chartStep at 2. simpl. rewrite IH. by rewrite <- app_assoc.
Qed.

Lemma getChartData_rows s :
  getChartData s
  = chartRow (players s) (Num 0) zeroScores
    :: chartRows (players s) zeroScores (statHistory s).
Proof.
  unfold getChartData. destruct (statHistory s) as [|e log]; [done|].
  change (0 <? length (e :: log))%nat with true. cbv iota.
  by rewrite chart_fold.
Qed.

Lemma chartRows_length ps sc log : length (chartRows ps sc log) = length log.
Proof. revert sc. induction log; intros sc; simpl; auto. Qed.

Lemma chartRows_lookup ps sc log i e :
  log !! i = Some e ->
  chartRows ps sc log !! i
  = Some (chartRow ps (Num (point e)) (scoresAfter sc (take (S i) log))).
Proof.
  revert sc i. induction log as [|e0 log IH]; intros sc i; [done|].
  destruct i as [|i]; simpl.
  - intros [= ->]. by destruct log.
  - intros Hi. by rewrite (IH _ _ Hi).
Qed.

Lemma scoresAfter_snoc sc log e :
  scoresAfter sc (log ++ [e])
  = scoresAdd (scoresAfter sc log) (playerIndex e) (statValue (stat e)).
Proof. unfold scoresAfter. by rewrite foldl_app. Qed.

Lemma tracks_zero names :
  length names = 4%nat -> tracks zeroScores (map zeroPlayer names).
Proof.
  intros Hlen. split; [rewrite length_map, Hlen; simpl; lia|].
  intros k q Hk. rewrite list_lookup_fmap in Hk.
  destruct (names !! k) as [n|] eqn:Hn; [|done].
  apply lookup_lt_Some in Hn. injection Hk as <-. simpl.
  destruct k as [|[|[|[|k]]]]; try done. lia.
Qed.

Lemma tracks_step sc ps idx st :
  tracks sc ps -> tracks (scoresAdd sc idx (statValue st)) (creditAt idx st ps).
Proof.
  intros [Hlen Hsc]. unfold tracks, scoresAdd. rewrite creditAt_length.
  repeat case_decide.
  - split; [done|]. intros k q. rewrite creditAt_lookup.
    destruct (ps !! k) as [p|] eqn:Hp; simpl; [|done].
    rewrite decide_False by lia. intros [= <-]. auto.
  - split; [by rewrite length_alter|]. intros k q. rewrite creditAt_lookup.
    destruct (ps !! k) as [p|] eqn:Hp; simpl; [|done].
    intros [= <-]. apply Hsc in Hp. case_decide.
    + replace (Z.to_nat idx) with k by lia.
      rewrite list_lookup_alter_eq, Hp. simpl. by destruct st.
    + rewrite list_lookup_alter_ne by lia. done.
  - split; [rewrite length_app; lia|]. intros k q. rewrite creditAt_lookup.
    destruct (ps !! k) as [p|] eqn:Hp; simpl; [|done].
    pose proof (lookup_lt_Some _ _ _ Hp).
    rewrite decide_False by lia. intros [= <-].
    rewrite lookup_app_l by lia. auto.
Qed.

Lemma tracks_replay names log :
  length names = 4%nat ->
  tracks (scoresAfter zeroScores log) (projectAll names log).
Proof.
  intros Hlen. induction log as [|e log IH] using rev_ind.
  - by apply tracks_zero.
  - rewrite scoresAfter_snoc, projectAll_snoc. by apply tracks_step.
Qed.

(** The properties of one row, when the four names are distinct and none
    of them is the name of a fixed property of the row. *)
Lemma chartRow_lookup ps pt sc :
  length ps = 4%nat ->
  Forall (fun p => name p <> "") ps ->
  NoDup (map name ps) ->
  "point" ∉ map name ps -> "zero" ∉ map name ps ->
  chartRow ps pt sc !! "point" = Some pt
  /\ chartRow ps pt sc !! "zero" = Some (Num 0)
  /\ forall k p, ps !! k = Some p ->
                 chartRow ps pt sc !! name p = Some (nth k sc NaN).
Proof.
  intros Hlen Hne Hnd Hpoint Hzero.
  destruct (roster_of_four _ Hlen) as (p0 & p1 & p2 & p3 & ->).
  apply Forall_cons in Hne as [Hn0 Hne]. apply Forall_cons in Hne as [Hn1 Hne].
  apply Forall_cons in Hne as [Hn2 Hne]. apply Forall_cons in Hne as [Hn3 _].
  simpl in Hnd, Hpoint, Hzero.
  rewrite !NoDup_cons, !not_elem_of_cons in Hnd.
  rewrite !not_elem_of_cons in Hpoint, Hzero.
  unfold chartRow, seriesKey. simpl.
  rewrite !decide_False by done.
  destruct_and!.
  split; [|split].
  - rewrite !lookup_insert_ne by congruence. apply lookup_insert_eq.
  - rewrite !lookup_insert_ne by congruence. apply lookup_insert_eq.
  - intros k p Hk.
    destruct k as [|[|[|[|k]]]]; simpl in Hk; try done; injection Hk as <-;
      rewrite ?lookup_insert_ne by congruence; apply lookup_insert_eq.
Qed.

Lemma last_chart_row ps log :
  exists pt,
    (chartRow ps (Num 0) zeroScores :: chartRows ps zeroScores log) !! length log
    = Some (chartRow ps pt (scoresAfter zeroScores log)).
Proof.
  destruct log as [|e log _] using rev_ind.
  - by exists (Num 0).
  - exists (Num (point e)). rewrite length_app, Nat.add_1_r. simpl.
    rewrite (chartRows_lookup _ _ _ _ e).
    + rewrite take_ge; [done|]. rewrite length_app. simpl. lia.
    + by rewrite lookup_app_r, Nat.sub_diag.
Qed.

(** C2 (as amended).  For every reachable started page whose four players
    have pairwise distinct names, none of which is "point" or "zero", the
    chart series has one row more than the log has entries; row 0 has point
    0, zero 0 and 0 under every player's name; row [i + 1] has the point
    number of log entry [i], zero 0 and, under each player's name, that
    player's score after replaying the first [i + 1] entries from the
    all-zero roster; the replay of the whole log is the current roster, so
    the last row holds the current scores. *)
Theorem chart_series h :
  reachable h ->
  isGameStarted (matchState h) = true ->
  NoDup (map name (players (matchState h))) ->
  "point" ∉ map name (players (matchState h)) ->
  "zero" ∉ map name (players (matchState h)) ->
  chartSeriesSpec (matchState h).
Proof.
  intros Hreach Hstart Hnd Hpoint Hzero.
  apply reachable_consistent in Hreach as [[Hsc Hro Hna Hre Hpts] _].
  rewrite Hstart in Hro.
  set (s := matchState h) in *. set (ps := players s) in *.
  set (log := statHistory s) in *.
  assert (Hnames : length (map name ps) = 4%nat) by (by rewrite length_map).
  assert (Hrow := fun pt sc => chartRow_lookup ps pt sc Hro Hna Hnd Hpoint Hzero).
  assert (Hzeros : forall k, (k < 4)%nat -> nth k zeroScores NaN = Num 0).
  { intros k Hk. by destruct k as [|[|[|[|k]]]]; [..|lia]. }
  unfold chartSeriesSpec. rewrite getChartData_rows.
  fold s. fold ps. fold log.
  split; [simpl; by rewrite chartRows_length|].
  split.
  { eexists. split; [reflexivity|].
    destruct (Hrow (Num 0) zeroScores) as (H1 & H2 & H3).
    split; [done|]. split; [done|].
    intros p [k Hk]%list_elem_of_lookup. rewrite (H3 k p Hk).
    f_equal. apply Hzeros. apply lookup_lt_Some in Hk. lia. }
  split.
  { intros i e Hi. eexists. split.
    - simpl. by apply chartRows_lookup.
    - destruct (Hrow (Num (point e)) (scoresAfter zeroScores (take (S i) log)))
        as (H1 & H2 & H3).
      split; [done|]. split; [done|].
      intros k p Hk.
      destruct (tracks_replay (map name ps) (take (S i) log) Hnames) as [_ Ht].
      destruct (lookup_lt_is_Some_2 (projectAll (map name ps) (take (S i) log)) k)
        as [q Hq].
      { rewrite projectAll_length, Hnames, <- Hro. by eapply lookup_lt_Some. }
      exists q. split; [done|].
      rewrite (H3 k p Hk), nth_lookup, (Ht k q Hq). done. }
  split; [done|].
  destruct (last_chart_row ps log) as [pt Hlast].
  eexists. split; [exact Hlast|].
  destruct (Hrow pt (scoresAfter zeroScores log)) as (_ & _ & H3).
  intros p [k Hk]%list_elem_of_lookup.
  destruct (tracks_replay (map name ps) log Hnames) as [_ Ht].
  rewrite <- Hre in Ht.
  rewrite (H3 k p Hk), nth_lookup, (Ht k p Hk). done.
Qed.

Lemma chart_series_witness :
  reachable sampleHome /\ chartSeriesSpec (matchState sampleHome).
Proof.
  split; [apply reachable_sampleHome|].
  apply (chart_series sampleHome).
  - apply reachable_sampleHome.
  - reflexivity.
  - apply (bool_decide_unpack _). vm_compute. exact I.
  - apply (bool_decide_unpack _). vm_compute. exact I.
  - apply (bool_decide_unpack _). vm_compute. exact I.
Defined.

(** C2 as first stated asks only for pairwise distinct names.  With a player
    called "point" the row built for the first event has, under "point",
    that player's score 2 and not the point number 1; with a player called
    "zero" who made an unforced error that row has -1 under "zero". *)
Lemma chart_series_counterexample :
  (reachable pointHome
   /\ isGameStarted (matchState pointHome) = true
   /\ NoDup (map name (players (matchState pointHome)))
   /\ ~ chartSeriesSpec (matchState pointHome))
  /\ (reachable zeroHome
      /\ isGameStarted (matchState zeroHome) = true
      /\ NoDup (map name (players (matchState zeroHome)))
      /\ ~ chartSeriesSpec (matchState zeroHome)).
Proof.
  split.
  - split; [apply reachable_pointHome|]. split; [reflexivity|]. split.
    + apply (bool_decide_unpack _). vm_compute. exact I.
    + intros (_ & _ & Hrows & _).
      destruct (Hrows 0%nat {| point := 1; playerIndex := 0; stat := stat_winners;
                               timestamp := 1700000000000 |} eq_refl)
        as (row & Hrow & Hpt & _).
      vm_compute in Hrow. injection Hrow as <-.
      vm_compute in Hpt. discriminate Hpt.
  - split; [apply reachable_zeroHome|]. split; [reflexivity|]. split.
    + apply (bool_decide_unpack _). vm_compute. exact I.
    + intros (_ & _ & Hrows & _).
      destruct (Hrows 0%nat {| point := 1; playerIndex := 3;
                               stat := stat_unforced_errors;
                               timestamp := 1700000000000 |} eq_refl)
        as (row & Hrow & _ & Hz & _).
      vm_compute in Hrow. injection Hrow as <-.
      vm_compute in Hz. discriminate Hz.
Qed.

(** ** Export and import *)

(** C3. Importing the text produced by exporting a state succeeds, whatever
    page imports it and whatever the answer to the confirmation, and leaves
    in memory the exported state: same players, same log, same started
    flag.  This holds of every state, reachable or not. *)
Theorem import_export_roundtrip h0 h iso confirmed :
  readImport (exportMatchData iso h0) = Imported (stateValue (matchState h0))
  /\ exists h',
       importMatchData (exportMatchData iso h0) confirmed h = Some h'
       /\ matchState h' = matchState h0
       /\ players (matchState h') = players (matchState h0)
       /\ statHistory (matchState h') = statHistory (matchState h0)
       /\ isGameStarted (matchState h') = isGameStarted (matchState h0).
Proof.
  split; [apply readImport_export|].
  destruct (importMatchData_export iso h0 confirmed h) as [storage ->].
  eexists. split; [reflexivity|]. done.
Qed.

(** A text that does not parse is reported as a parse failure. *)
Lemma import_undecodable text :
  parse text = None -> readImport text = ParseFailure.
Proof. unfold readImport. by intros ->. Qed.

(** A text that parses to something other than [null] and lacks one of the
    required parts is reported as an invalid format. *)
Lemma import_invalid_format text v :
  parse text = Some v -> v <> JNull ->
  (getProp (Ref v) "matchState" = Some Undefined
   \/ (exists ms, getProp (Ref v) "matchState" = Some ms /\ truthy ms = true
                  /\ getProp ms "players" = Some Undefined)
   \/ (exists ms sh, getProp (Ref v) "matchState" = Some ms /\ truthy ms = true
                     /\ getProp ms "statHistory" = Some sh /\ isArray sh = false)) ->
  readImport text = InvalidFormat.
Proof.
  intros Hparse Hnull Hshape. unfold readImport, importCondition. rewrite Hparse.
  destruct Hshape as [H | [(ms & H & Hms & Hpl) | (ms & sh & H & Hms & Hsh & Harr)]];
    rewrite H; simpl; [done| |].
  - by rewrite Hms, Hpl.
  - rewrite Hms. destruct (getProp ms "players") as [pl|] eqn:Hpl; simpl.
    + destruct (truthy pl); [|done]. rewrite Hsh. simpl. by rewrite Harr.
    + destruct ms as [|[]]; simpl in *; discriminate.
Qed.

(** A failed import leaves the page as it was. *)
Lemma import_failure_keeps_page text confirmed h :
  (forall v, readImport text <> Imported v) ->
  importMatchData text confirmed h = Some h.
Proof.
  intros Hfail. unfold importMatchData.
  destruct (readImport text) as [v| |]; [by destruct (Hfail v)|done|done].
Qed.

(** C4 at the text [null].  The text parses, to the value [null], which has
    no [matchState] property; reading that property raises a TypeError, the
    [catch] branch runs, and the import is reported as a parse failure, not
    as an invalid format.  The page is unchanged. *)
Theorem import_null_payload confirmed h :
  parse "null" = Some JNull
  /\ getProp (Ref JNull) "matchState" = None
  /\ readImport "null" = ParseFailure
  /\ readImport "null" <> InvalidFormat
  /\ importMatchData "null" confirmed h = Some h.
Proof. repeat split; done. Qed.

(** ** The durable store *)

(** A successful import of a state that renders ends with the imported
    state in [localStorage], also when the confirmation is declined: the
    persist effect writes it. *)
Lemma import_persists_anyway text v s confirmed h :
  readImport text = Imported v -> stateOfValue v = Some s -> renders s = true ->
  exists h',
    importMatchData text confirmed h = Some h'
    /\ matchState h' = s
    /\ localStorage h' !! storageKey = Some (stringify 0 (stateValue s)).
Proof.
  intros Hread Hs Hr. unfold importMatchData. rewrite Hread, Hs. simpl.
  rewrite Hr. eexists. split; [reflexivity|]. split; [by destruct confirmed|].
  destruct confirmed; simpl; apply lookup_insert_eq.
Qed.

(** C8 at a declined import.  The page [sampleStart] has its own state in
    the store; it imports the export of [sampleHome] and the user declines.
    The store then holds the imported state, not what it held before. *)
Theorem import_declined_overwrites_store :
  exists h',
    importMatchData (exportMatchData "2024-05-01T10:00:00.000Z" sampleHome)
                    false sampleStart = Some h'
    /\ matchState h' = matchState sampleHome
    /\ localStorage sampleStart !! storageKey
       = Some (stringify 0 (stateValue (matchState sampleStart)))
    /\ localStorage h' !! storageKey
       = Some (stringify 0 (stateValue (matchState sampleHome)))
    /\ localStorage h' !! storageKey <> localStorage sampleStart !! storageKey.
Proof.
  destruct (import_persists_anyway
              (exportMatchData "2024-05-01T10:00:00.000Z" sampleHome)
              (stateValue (matchState sampleHome)) (matchState sampleHome)
              false sampleStart) as (h' & Himp & Hst & Hsto).
  - apply readImport_export.
  - apply stateOfValue_stateValue.
  - reflexivity.
  - exists h'. split; [done|]. split; [done|]. split; [by vm_compute|].
    split; [done|]. rewrite Hsto. by vm_compute.
Qed.

(** A confirmed reset leaves under the key the text of the empty state:
    [removeItem] is followed by the persist effect. *)
Lemma reset_rewrites_key h :
  matchState (resetMatch true h) = emptyMatch
  /\ playerNames (resetMatch true h) = [""; ""; ""; ""]
  /\ localStorage (resetMatch true h) !! storageKey
     = Some (json_text "{'players':[],'isGameStarted':false,'statHistory':[]}")
  /\ localStorage (resetMatch true h) !! storageKey <> None.
Proof.
  split; [done|]. split; [done|].
  assert (H : localStorage (resetMatch true h) !! storageKey
              = Some (json_text "{'players':[],'isGameStarted':false,'statHistory':[]}")).
  { simpl. rewrite lookup_insert_eq. by vm_compute. }
  split; [exact H|]. by rewrite H.
Qed.

(** The text left in the store by a reset reads back as the empty state. *)
Lemma reset_text_loads_empty :
  stateOfValue
    <$> parse (json_text "{'players':[],'isGameStarted':false,'statHistory':[]}")
  = Some (Some emptyMatch).
Proof. by vm_compute. Qed.

Lemma stateText_nonempty s : String.eqb (stringify 0 (stateValue s)) "" = false.
Proof. unfold stringify, stateValue. by rewrite print_object. Qed.

Lemma parse_stateText s : parse (stringify 0 (stateValue s)) = Some (stateValue s).
Proof. apply parse_stringify, stateValue_plain. Qed.

(** The page mounted on a store that holds the text of [s]. *)
Lemma mount_text storage s :
  storage !! storageKey = Some (stringify 0 (stateValue s)) ->
  mount storage
  = if renders s
    then Ready (persist (setMatchState s (persist (initialHome storage))))
    else RenderError (localStorage (persist (initialHome storage))).
Proof.
  intros Hsaved. unfold mount. rewrite Hsaved, stateText_nonempty.
  by rewrite parse_stateText, stateOfValue_stateValue.
Qed.

(** C9. After a confirmed reset that follows any sequence of scoring events
    the match state is the empty state, not started.  The store holds under
    the key the text of that empty state, and this is as good as no key:
    the page mounts on this store as it mounts on the store without the
    key, with the empty state, and is then the page that the reset left. *)
Theorem reset_clears_match h (ops : list (Z * Stat * Z)) :
  let played := foldl (fun x op => onIncrementStat op.1.1 op.1.2 op.2 x) h ops in
  let h' := resetMatch true played in
  matchState h' = emptyMatch
  /\ localStorage h' !! storageKey = Some (stringify 0 (stateValue emptyMatch))
  /\ asGoodAsAbsent (localStorage h')
  /\ mount (localStorage h') = Ready h'.
Proof.
  intros played h'. split; [done|].
  assert (Hkey : localStorage h' !! storageKey
                 = Some (stringify 0 (stateValue emptyMatch)))
    by apply lookup_insert_eq.
  assert (Hmount : mount (localStorage h') = Ready h').
  { rewrite (mount_text _ emptyMatch Hkey).
    change (renders emptyMatch) with true. cbv iota.
    unfold h', resetMatch, persist, setMatchState, initialHome. simpl.
    by rewrite !insert_insert_eq. }
  split; [exact Hkey|]. split; [|exact Hmount].
  unfold asGoodAsAbsent. rewrite Hmount.
  unfold mount. rewrite lookup_delete_eq.
  unfold h', resetMatch, persist, initialHome. simpl.
  by rewrite delete_insert_eq, delete_delete_eq.
Qed.

(** * Further properties of the page *)

(** ** Saving and loading *)

Lemma renders_spec s :
  renders s = true
  <-> isGameStarted s = false \/ (4 <= length (players s))%nat.
Proof.
  unfold renders, getTeamStats. destruct (isGameStarted s); simpl.
  - destruct (players s) as [|p0 [|p1 [|p2 [|p3 rest]]]]; simpl;
      (split; [intros H; try discriminate H; right; lia
              |intros [H|H]; [discriminate H|simpl in H; try lia; reflexivity]]).
  - split; [by left|done].
Qed.

(** The page mounted on a store that holds the text of [s]. *)
Lemma mount_loadable storage s :
  storage !! storageKey = Some (stringify 0 (stateValue s)) ->
  mount storage
  = if renders s
    then Ready {| matchState := s;
                  playerNames := [""; ""; ""; ""];
                  localStorage := storage |}
    else RenderError (<[storageKey := emptyText]> storage).
Proof.
  intros Hsaved. rewrite (mount_text _ s Hsaved). destruct (renders s); [|done].
  unfold persist, setMatchState, initialHome. simpl. f_equal. f_equal.
  rewrite insert_insert_eq. by apply insert_id.
Qed.

(** X1. Loading what the page saved gives the match back when the match
    can be rendered: the page mounted on the store left by [persist] holds
    the same match state and leaves the store as it found it; the name
    inputs are blank again.  A saved state that cannot be rendered takes
    the page down when it is loaded, and by then the store holds the text
    of the empty state: the saved match is lost. *)
Theorem reload_restores h :
  mount (localStorage (persist h))
  = if renders (matchState h)
    then Ready {| matchState := matchState h;
                  playerNames := [""; ""; ""; ""];
                  localStorage := localStorage (persist h) |}
    else RenderError (<[storageKey := emptyText]> (localStorage h)).
Proof.
  rewrite (mount_loadable _ (matchState h)) by apply lookup_insert_eq.
  destruct (renders (matchState h)); [done|].
  unfold persist. simpl. by rewrite insert_insert_eq.
Qed.

Lemma persist_mirrored h : mirrored (persist h).
Proof. apply lookup_insert_eq. Qed.

Lemma mount_live storage h : mount storage = Ready h -> live h.
Proof.
  unfold mount. intros H.
  destruct (storage !! storageKey) as [t|];
    [|injection H as <-; split; [apply persist_mirrored|done]].
  destruct (String.eqb t "");
    [injection H as <-; split; [apply persist_mirrored|done]|].
  destruct (parse t) as [v|]; [|done].
  destruct (stateOfValue v) as [s|]; [|done].
  destruct (renders s) eqn:Hr; [|done].
  injection H as <-. split; [apply persist_mirrored|exact Hr].
Qed.

Lemma mirrored_loadable h : mirrored h -> loadable (localStorage h).
Proof. intros Hm. exists (matchState h). split; [done|]. by apply mount_loadable. Qed.

Lemma commit_live x h :
  mirrored x -> localStorage h = localStorage x ->
  match commit h with
  | Page y => live y
  | Crashed store => loadable store
  | Beyond => False
  end.
Proof.
  intros Hm Hsto. unfold commit. destruct (renders (matchState h)) eqn:Hr.
  - split; [apply persist_mirrored|exact Hr].
  - rewrite Hsto. by apply mirrored_loadable.
Qed.

Lemma inherited_false key : key ∉ objectPrototypeNames -> inherited key = false.
Proof. intros Hk. unfold inherited. by apply bool_decide_eq_false. Qed.

(** One action on a page that is up leaves a page that is up, or takes the
    page down and leaves a store that holds the text of a match state. *)
Lemma dispatch_live a x :
  live x -> covered a ->
  match dispatch a x with
  | Page y => live y
  | Crashed store => loadable store
  | Beyond => False
  end.
Proof.
  intros [Hm Hr] Ha.
  destruct a as [i text| |n now|key now|confirmed|text confirmed]; simpl.
  - destruct (isGameStarted _); [done|]. by destruct (i <? 4)%nat.
  - destruct (isGameStarted _); [done|].
    destruct (startMatch _); [by apply (commit_live x)|done].
  - destruct (statButtons _ !! n); [by apply (commit_live x)|done].
  - destruct (negb _); [done|].
    destruct (keyMap key) as [[idx st]|]; [by apply (commit_live x)|].
    simpl in Ha. by rewrite inherited_false.
  - destruct (isGameStarted _); [|done].
    destruct confirmed; [|done]. split; [apply persist_mirrored|done].
  - destruct (isGameStarted _); [|done].
    unfold importMatchData. destruct (readImport text) as [v| |] eqn:Hread.
    + destruct (Ha v Hread) as [s Hs]. rewrite Hs. simpl.
      apply stateOfValue_inv in Hs as ->.
      destruct (renders s) eqn:Hrs.
      * destruct confirmed; simpl; rewrite Hrs;
          (split; [apply persist_mirrored|exact Hrs]).
      * destruct confirmed; simpl; rewrite Hrs.
        -- exists s. split; [apply lookup_insert_eq|].
           apply mount_loadable, lookup_insert_eq.
        -- by apply mirrored_loadable.
    + by rewrite Hr.
    + by rewrite Hr.
Qed.

(** What holds of a page and is kept by every action holds at the end of a
    session. *)
Lemma run_sound (P : Home -> Prop) (Q : gmap string string -> Prop)
      (C : Action -> Prop) actions h :
  (forall a x, P x -> C a ->
               match dispatch a x with
               | Page y => P y
               | Crashed store => Q store
               | Beyond => False
               end) ->
  P h -> Forall C actions ->
  match run actions h with
  | Page y => P y
  | Crashed store => Q store
  | Beyond => False
  end.
Proof.
  intros Hstep. revert h.
  induction actions as [|a rest IH]; intros h Hh Hacts; simpl; [done|].
  apply Forall_cons in Hacts as [Ha Hrest].
  specialize (Hstep a h Hh Ha).
  destruct (dispatch a h) as [y|store|]; [by apply IH|done|done].
Qed.

Lemma sampleSession_covered : Forall covered sampleSession.
Proof.
  unfold sampleSession.
  repeat (apply List.Forall_cons; [try exact I|]); try apply List.Forall_nil;
    simpl; apply (bool_decide_unpack _); vm_compute; exact I.
Qed.

Lemma sampleSession_runs : run sampleSession freshPage = Page sampleEnd.
Proof. by vm_compute. Qed.

Lemma importSession_covered : Forall covered importSession.
Proof.
  apply Forall_app. split; [apply sampleSession_covered|].
  apply List.Forall_cons; [|by apply List.Forall_cons].
  intros v. rewrite readImport_export. intros [= <-].
  rewrite stateOfValue_stateValue. by eexists.
Qed.

Lemma importSession_runs : run importSession freshPage = Page importEnd.
Proof. by vm_compute. Qed.

(** X2. From the moment the page has mounted, and through a session in
    which no key pressed is a name of [objectPrototypeNames] and every file
    chosen is refused or holds a match state in the shape in which the page
    writes it: while the page is up the store holds under 'padelMatch' the
    compact JSON text of the current match state; when a render has failed
    (an imported match that is started with fewer than four players) the
    store still holds the text of a match state.  Such a session never
    leaves the interface [MatchState]. *)
Theorem store_mirrors_state storage actions h0 :
  mount storage = Ready h0 -> Forall covered actions ->
  match run actions h0 with
  | Page h => mirrored h
  | Crashed store =>
      exists s, store !! storageKey = Some (stringify 0 (stateValue s))
  | Beyond => False
  end.
Proof.
  intros Hmount Hacts.
  pose proof (run_sound live loadable covered actions h0 dispatch_live
                (mount_live _ _ Hmount) Hacts) as H.
  destruct (run actions h0) as [h|store|]; [by destruct H| |done].
  destruct H as (s & Hs & _). by exists s.
Qed.

Lemma store_mirrors_state_witness : mirrored importEnd.
Proof.
  pose proof (store_mirrors_state ∅ importSession freshPage eq_refl
                importSession_covered) as H.
  rewrite importSession_runs in H. exact H.
Defined.

Lemma commit_store h k :
  match commit h with
  | Page y => k <> storageKey -> localStorage y !! k = localStorage h !! k
  | Crashed store => store = localStorage h
  | Beyond => False
  end.
Proof.
  unfold commit. destruct (renders _); [|done].
  intros Hk. simpl. by rewrite lookup_insert_ne.
Qed.

Lemma dispatch_store a x k :
  k <> storageKey -> covered a ->
  match dispatch a x with
  | Page y => localStorage y !! k = localStorage x !! k
  | Crashed store => store !! k = localStorage x !! k
  | Beyond => False
  end.
Proof.
  intros Hk Ha.
  assert (Hcommit : forall h, localStorage h = localStorage x ->
            match commit h with
            | Page y => localStorage y !! k = localStorage x !! k
            | Crashed store => store !! k = localStorage x !! k
            | Beyond => False
            end).
  { intros h Hh. pose proof (commit_store h k) as H.
    destruct (commit h); [rewrite <- Hh; by apply H|by rewrite H, Hh|done]. }
  destruct a as [i text| |n now|key now|confirmed|text confirmed]; simpl.
  - destruct (isGameStarted _); [done|]. by destruct (i <? 4)%nat.
  - destruct (isGameStarted _); [done|].
    destruct (startMatch _); [by apply Hcommit|done].
  - destruct (statButtons _ !! n); [by apply Hcommit|done].
  - destruct (negb _); [done|].
    destruct (keyMap key) as [[idx st]|]; [by apply Hcommit|].
    simpl in Ha. by rewrite inherited_false.
  - destruct (isGameStarted _); [|done].
    destruct confirmed; simpl; [|done].
    by rewrite lookup_insert_ne, lookup_delete_ne.
  - destruct (isGameStarted _); [|done].
    unfold importMatchData. destruct (readImport text) as [v| |] eqn:Hread.
    + destruct (Ha v Hread) as [s Hs]. rewrite Hs. simpl.
      destruct (renders s) eqn:Hrs; destruct confirmed; simpl; rewrite Hrs; simpl;
        by rewrite ?lookup_insert_ne.
    + by destruct (renders _).
    + by destruct (renders _).
Qed.

Lemma mount_store storage h k :
  k <> storageKey -> mount storage = Ready h -> localStorage h !! k = storage !! k.
Proof.
  unfold mount. intros Hk H.
  repeat (match type of H with
          | context [match ?x with _ => _ end] => destruct x
          end; try discriminate H);
    injection H as <-; simpl; by rewrite !lookup_insert_ne.
Qed.

(** X3. The page reads and writes one key of the store.  Whatever else the
    store holds when the page mounts is still there, unchanged, at the end
    of a session in which no key pressed is a name of
    [objectPrototypeNames] and every file chosen is refused or holds a
    match state in the shape in which the page writes it, whether the page
    is then up or a render has failed. *)
Theorem other_keys_untouched storage actions h0 k :
  k <> storageKey -> mount storage = Ready h0 -> Forall covered actions ->
  match run actions h0 with
  | Page h => localStorage h !! k = storage !! k
  | Crashed store => store !! k = storage !! k
  | Beyond => False
  end.
Proof.
  intros Hk Hmount Hacts.
  apply (run_sound (fun x => localStorage x !! k = storage !! k)
                   (fun store => store !! k = storage !! k) covered);
    [|by apply mount_store|done].
  intros a x Hx Ha. pose proof (dispatch_store a x k Hk Ha) as H.
  destruct (dispatch a x); [by rewrite H|by rewrite H|done].
Qed.

Lemma other_keys_untouched_witness :
  localStorage themedEnd !! "theme" = themedStore !! "theme"
  /\ themedStore !! "theme" = Some "dark".
Proof.
  split; [|reflexivity].
  pose proof (other_keys_untouched themedStore sampleSession
                (persist (initialHome themedStore)) "theme") as H.
  assert (E : run sampleSession (persist (initialHome themedStore)) = Page themedEnd)
    by (by vm_compute).
  rewrite E in H. apply H.
  - by vm_compute.
  - reflexivity.
  - apply sampleSession_covered.
Defined.

(** X5. A confirmed reset leaves the page exactly as a mount on the store
    without the saved state would: empty match, blank name inputs, and the
    text of the empty match under the key. *)
Theorem reset_is_fresh_mount h :
  mount (delete storageKey (localStorage h)) = Ready (resetMatch true h).
Proof. unfold mount. by rewrite lookup_delete_eq. Qed.

(** ** Buttons and keys *)

Lemma keyMap_range key idx st : keyMap key = Some (idx, st) -> 0 <= idx <= 3.
Proof. unfold keyMap. repeat case_decide; intros [= <- <-]; lia. Qed.

Lemma teamButtons_elem offset slice b :
  b ∈ teamButtons offset slice ->
  exists index,
    (index < length slice)%nat
    /\ target b = Z.of_nat index + offset
    /\ keyHint b = target b * 2 + match kind b with
                                  | stat_winners => 1
                                  | stat_unforced_errors => 2
                                  end.
Proof.
  unfold teamButtons. intros Hb.
  apply list_elem_of_In, in_concat in Hb as (l & Hl & Hb).
  apply list_elem_of_In in Hl, Hb.
  apply list_elem_of_lookup in Hl as [index Hl].
  rewrite list_lookup_imap in Hl.
  destruct (slice !! index) as [p|] eqn:Hp; [|done].
  apply lookup_lt_Some in Hp. injection Hl as <-. exists index.
  split; [done|].
  apply elem_of_cons in Hb as [-> | Hb]; [done|].
  apply list_elem_of_singleton in Hb as ->. done.
Qed.

(** What every rendered button passes to [incrementStat]. *)
Lemma statButtons_elem s b :
  b ∈ statButtons s ->
  isGameStarted s = true
  /\ 0 <= target b <= 3
  /\ target b < Z.of_nat (length (players s))
  /\ keyHint b = target b * 2 + match kind b with
                                | stat_winners => 1
                                | stat_unforced_errors => 2
                                end.
Proof.
  unfold statButtons. destruct (isGameStarted s); [|by intros ?%elem_of_nil].
  intros [Hb | Hb]%elem_of_app;
    apply teamButtons_elem in Hb as (index & Hlt & Ht & Hk);
    rewrite length_take in Hlt; rewrite ?length_drop in Hlt;
    (split; [done|]); repeat split; try done; lia.
Qed.

Lemma button_hint_key b :
  0 <= target b <= 3 ->
  keyHint b = target b * 2 + match kind b with
                             | stat_winners => 1
                             | stat_unforced_errors => 2
                             end ->
  keyMap (numberText (keyHint b)) = Some (target b, kind b).
Proof.
  destruct b as [t k hint]. simpl. intros Ht ->.
  assert (Hcase : t = 0 \/ t = 1 \/ t = 2 \/ t = 3) by lia.
  destruct Hcase as [-> | [-> | [-> | ->]]]; by destruct k.
Qed.

(** X6. The number printed on a W or UE button is the key that does the
    same thing: for every button the page renders, [keyMap] sends the text
    of that number to the button's player index and stat, and pressing that
    key gives the same page as clicking the button. *)
Theorem button_hint_is_its_key h b now :
  b ∈ statButtons (matchState h) ->
  keyMap (numberText (keyHint b)) = Some (target b, kind b)
  /\ handleKeyPress (numberText (keyHint b)) now h
     = onIncrementStat (target b) (kind b) now h.
Proof.
  intros (Hstart & Ht & _ & Hk)%statButtons_elem.
  pose proof (button_hint_key b Ht Hk) as Hkey.
  split; [done|]. unfold handleKeyPress. by rewrite Hstart, Hkey.
Qed.

Lemma button_hint_is_its_key_witness :
  {| target := 2; kind := stat_unforced_errors; keyHint := 6 |}
    ∈ statButtons (matchState sampleEnd)
  /\ handleKeyPress "6" 4000 sampleEnd
     = onIncrementStat 2 stat_unforced_errors 4000 sampleEnd.
Proof.
  assert (Hin : {| target := 2; kind := stat_unforced_errors; keyHint := 6 |}
                  ∈ statButtons (matchState sampleEnd)).
  { vm_compute. do 5 apply list_elem_of_further. apply list_elem_of_here. }
  split; [exact Hin|].
  exact (proj2 (button_hint_is_its_key sampleEnd _ 4000 Hin)).
Defined.




(** ** Bookkeeping of a session on the page's own controls *)

Lemma fresh_counters names :
  sumZ (map (fun p => winners p + unforced_errors p) (map newPlayer names)) = 0.
Proof. induction names; simpl; lia. Qed.

Lemma tidy_increment idx st now h :
  isGameStarted (matchState h) = true -> 0 <= idx <= 3 ->
  tidy h -> tidy (onIncrementStat idx st now h).
Proof.
  intros Hstart Hidx (Hcons & Hlog & Hrange & Hnames).
  pose proof (ok_roster _ Hcons) as Hro. rewrite Hstart in Hro.
  split; [by apply consistent_increment|]. split; [|split; [|done]].
  - unfold logMatchesCounters in *. simpl.
    rewrite counters_credited by done. rewrite length_app. simpl. lia.
  - unfold inRange in *. simpl. apply Forall_app. split; [done|].
    by apply Forall_singleton.
Qed.

Lemma tidy_start h : tidy h -> tidy (onStartMatch h).
Proof.
  intros (Hcons & Hlog & Hrange & Hnames). unfold onStartMatch.
  destruct (startMatch (playerNames h)) as [s|] eqn:Hs; [|done].
  split; [by eapply consistent_start|].
  unfold startMatch in Hs. destruct (namesReady _); [|done].
  injection Hs as <-. split; [|split; [|done]].
  - unfold logMatchesCounters. simpl. by rewrite fresh_counters.
  - by apply Forall_nil.
Qed.

Lemma tidy_reset confirmed h : tidy h -> tidy (resetMatch confirmed h).
Proof.
  intros Ht. destruct confirmed; [|done].
  split; [apply consistent_empty|]. split; [done|]. split; [|done].
  by apply Forall_nil.
Qed.

Lemma tidy_renders h : tidy h -> renders (matchState h) = true.
Proof.
  intros (Hcons & _). apply renders_spec.
  pose proof (ok_roster _ Hcons) as Hro.
  destruct (isGameStarted (matchState h)); [right; lia|by left].
Qed.

Lemma tidy_commit h : tidy (persist h) -> commit h = Page (persist h).
Proof.
  intros Ht. pose proof (tidy_renders _ Ht) as Hr. simpl in Hr.
  unfold commit. by rewrite Hr.
Qed.

Lemma tidy_dispatch a h :
  tidy h -> ownControl a ->
  match dispatch a h with
  | Page y => tidy y
  | Crashed _ => False
  | Beyond => False
  end.
Proof.
  intros Ht Ha.
  destruct a as [i text| |n now|key now|confirmed|text confirmed]; simpl;
    try done.
  - destruct (isGameStarted _); [done|]. destruct (i <? 4)%nat; [|done].
    destruct Ht as (? & ? & ? & Hn). unfold tidy. simpl.
    by rewrite length_imap.
  - destruct (isGameStarted _); [done|].
    pose proof (tidy_start h Ht) as Hs. unfold onStartMatch in Hs.
    destruct (startMatch _); [|done]. by rewrite tidy_commit.
  - destruct (statButtons (matchState h) !! n) as [b|] eqn:Hb; [|done].
    apply list_elem_of_lookup_2, statButtons_elem in Hb as (Hs & Hr & _).
    pose proof (tidy_increment (target b) (kind b) now h Hs Hr Ht) as Hi.
    by rewrite tidy_commit.
  - destruct (isGameStarted (matchState h)) eqn:Hs; [|done]. simpl.
    destruct (keyMap key) as [[idx st]|] eqn:Hk.
    + pose proof (tidy_increment idx st now h Hs (keyMap_range _ _ _ Hk) Ht) as Hi.
      by rewrite tidy_commit.
    + simpl in Ha. by rewrite inherited_false.
  - destruct (isGameStarted _); [|done]. by apply tidy_reset.
Qed.

Lemma tidy_fresh storage : tidy (persist (initialHome storage)).
Proof.
  split; [apply consistent_empty|]. split; [done|]. split; [|done].
  by apply Forall_nil.
Qed.

(** X8. On a page mounted without saved state, a session that imports no
    file and presses no key named in [objectPrototypeNames] never takes the
    page down, and at its end the log has exactly as many entries as the
    players' winners and unforced errors add up to, and every entry names
    one of the four players: the buttons and the eight keys of the key map
    only ever pass an index in 0..3, and only on a started match. *)
Theorem ui_session_bookkeeping storage actions h0 :
  storage !! storageKey = None ->
  mount storage = Ready h0 ->
  Forall ownControl actions ->
  exists h,
    run actions h0 = Page h
    /\ logMatchesCounters (matchState h) /\ inRange (matchState h).
Proof.
  intros Hkey Hmount Hacts.
  unfold mount in Hmount. rewrite Hkey in Hmount. injection Hmount as <-.
  pose proof (run_sound tidy (fun _ => False) ownControl actions
                (persist (initialHome storage))
                (fun a x Hx Ha => tidy_dispatch a x Hx Ha)
                (tidy_fresh storage) Hacts) as H.
  destruct (run actions (persist (initialHome storage))) as [h| |]; [|done..].
  exists h. by destruct H as (_ & ? & ? & _).
Qed.

Lemma sampleSession_ownControl : Forall ownControl sampleSession.
Proof.
  unfold sampleSession.
  repeat (apply List.Forall_cons; [try exact I|]); try apply List.Forall_nil;
    simpl; apply (bool_decide_unpack _); vm_compute; exact I.
Qed.

Lemma ui_session_bookkeeping_witness :
  logMatchesCounters (matchState sampleEnd) /\ inRange (matchState sampleEnd).
Proof.
  destruct (ui_session_bookkeeping ∅ sampleSession freshPage)
    as (h & Hrun & Hlog & Hrange).
  - reflexivity.
  - reflexivity.
  - apply sampleSession_ownControl.
  - rewrite sampleSession_runs in Hrun. injection Hrun as <-. by split.
Defined.

(** ** Counters and the log *)

Lemma countOf_snoc k st log e :
  countOf k st (log ++ [e])
  = countOf k st log
    + (if decide (playerIndex e = Z.of_nat k /\ stat e = st) then 1 else 0).
Proof. unfold countOf. rewrite map_app, sumZ_app. simpl. lia. Qed.

Lemma countOf_bounds k log :
  0 <= countOf k stat_winners log
  /\ 0 <= countOf k stat_unforced_errors log
  /\ countOf k stat_winners log + countOf k stat_unforced_errors log
     <= Z.of_nat (length log).
Proof.
  induction log as [|e log IH] using rev_ind; [done|].
  rewrite !countOf_snoc, length_app. simpl.
  repeat case_decide; destruct_and?; try congruence; lia.
Qed.

(** The counters of a replayed roster are the counts of the log. *)
Lemma replay_counts names log k q :
  projectAll names log !! k = Some q ->
  winners q = countOf k stat_winners log
  /\ unforced_errors q = countOf k stat_unforced_errors log
  /\ score q = 2 * countOf k stat_winners log - countOf k stat_unforced_errors log.
Proof.
  revert q. induction log as [|e log IH] using rev_ind; intros q.
  - unfold projectAll. simpl. rewrite list_lookup_fmap.
    destruct (names !! k); [|done]. by intros [= <-].
  - rewrite projectAll_snoc. unfold applyEvent. rewrite creditAt_lookup.
    destruct (projectAll names log !! k) as [p|]; [|done]. simpl.
    destruct (IH p eq_refl) as (Hw & Hu & Hs). intros [= <-].
    rewrite !countOf_snoc.
    case_decide as Hk.
    + rewrite Hk. destruct (stat e); simpl;
        repeat case_decide; destruct_and?; try congruence;
        try (exfalso; tauto); lia.
    + repeat case_decide; destruct_and?; try congruence; lia.
Qed.

(** X9. On every reachable page each player's counters are the counts of
    the log: the winners are the log entries with that player's index and
    stat 'winners', the unforced errors those with stat 'unforced_errors',
    and the score is twice the first count minus the second. *)
Theorem counters_count_log h k p :
  reachable h -> players (matchState h) !! k = Some p ->
  winners p = countOf k stat_winners (statHistory (matchState h))
  /\ unforced_errors p = countOf k stat_unforced_errors (statHistory (matchState h))
  /\ score p = 2 * countOf k stat_winners (statHistory (matchState h))
               - countOf k stat_unforced_errors (statHistory (matchState h)).
Proof.
  intros Hreach Hp. apply reachable_consistent in Hreach as [Hcons _].
  pose proof (ok_replay _ Hcons) as Hre. rewrite Hre in Hp.
  by apply (replay_counts _ _ _ _ Hp).
Qed.

Lemma counters_count_log_witness :
  reachable sampleHome
  /\ winners {| name := "A"; winners := 1; unforced_errors := 0; score := 2 |}
     = countOf 0 stat_winners (statHistory (matchState sampleHome)).
Proof.
  split; [apply reachable_sampleHome|].
  apply (counters_count_log sampleHome 0
           {| name := "A"; winners := 1; unforced_errors := 0; score := 2 |}).
  - apply reachable_sampleHome.
  - reflexivity.
Defined.

(** X10. On every reachable page, with [N] the length of the log: no
    counter is negative, a player's winners and unforced errors together are
    at most [N], and the score lies between [-N] and [2 * N]. *)
Theorem counters_bounded h p :
  reachable h -> p ∈ players (matchState h) ->
  0 <= winners p /\ 0 <= unforced_errors p
  /\ winners p + unforced_errors p <= Z.of_nat (length (statHistory (matchState h)))
  /\ - Z.of_nat (length (statHistory (matchState h))) <= score p
  /\ score p <= 2 * Z.of_nat (length (statHistory (matchState h))).
Proof.
  intros Hreach [k Hp]%list_elem_of_lookup.
  apply reachable_consistent in Hreach as [Hcons _].
  pose proof (ok_replay _ Hcons) as Hre. rewrite Hre in Hp.
  destruct (replay_counts _ _ _ _ Hp) as (-> & -> & ->).
  pose proof (countOf_bounds k (statHistory (matchState h))). lia.
Qed.

Lemma counters_bounded_witness :
  - 2 <= score {| name := "C"; winners := 0; unforced_errors := 1; score := -1 |}.
Proof.
  eapply (counters_bounded sampleHome
            {| name := "C"; winners := 0; unforced_errors := 1; score := -1 |}).
  - apply reachable_sampleHome.
  - vm_compute. do 2 apply list_elem_of_further. apply list_elem_of_here.
Defined.

(** On a reachable page whose log has fewer than 2^51 entries the counters
    and scores are safe integers, and stay so through one more event: the
    sums of [credit] are exact. *)
Lemma reachable_exactCredit h st p :
  reachable h -> p ∈ players (matchState h) ->
  Z.of_nat (length (statHistory (matchState h))) < 2 ^ 51 ->
  exactCredit st p.
Proof.
  intros Hreach [k Hp]%list_elem_of_lookup Hlen.
  apply reachable_consistent in Hreach as [Hcons _].
  pose proof (ok_replay _ Hcons) as Hre. rewrite Hre in Hp.
  destruct (replay_counts _ _ _ _ Hp) as (Hw & Hu & Hs).
  pose proof (countOf_bounds k (statHistory (matchState h))) as Hb.
  unfold exactCredit, safeInteger.
  change (2 ^ 53) with 9007199254740992.
  change (2 ^ 51) with 2251799813685248 in Hlen.
  destruct st; simpl; lia.
Qed.

(** ** More on team totals *)

(** X11. On every reachable page the totals of either team obey the player
    formula: the team score is twice the team's winners minus the team's
    unforced errors, whatever team index is asked for. *)
Theorem team_totals_formula h t :
  reachable h ->
  exists tot,
    getTeamStats t (matchState h) = Some tot
    /\ total_score tot = 2 * total_winners tot - total_unforced_errors tot.
Proof.
  intros Hreach. apply reachable_consistent in Hreach as [Hcons _].
  pose proof (ok_roster _ Hcons) as Hro. pose proof (ok_scores _ Hcons) as Hsc.
  unfold getTeamStats. destruct (isGameStarted (matchState h)); simpl.
  - destruct (roster_of_four _ Hro) as (p0 & p1 & p2 & p3 & Hps).
    rewrite Hps in *.
    apply Forall_cons in Hsc as [H0 Hsc]. apply Forall_cons in Hsc as [H1 Hsc].
    apply Forall_cons in Hsc as [H2 Hsc]. apply Forall_cons in Hsc as [H3 _].
    case_decide; simpl; eexists; (split; [reflexivity|]); simpl; lia.
  - by exists noTotals.
Qed.

Lemma team_totals_formula_witness :
  exists tot,
    getTeamStats 1 (matchState sampleHome) = Some tot
    /\ total_score tot = 2 * total_winners tot - total_unforced_errors tot.
Proof. exact (team_totals_formula sampleHome 1 reachable_sampleHome). Defined.

(** X12. [getTeamStats] raises its TypeError exactly when the match is
    started and the roster is too short for the team asked for: fewer than
    two players for team 0, fewer than four for any other team index.  Every
    index other than 0 selects players 2 and 3. *)
Theorem getTeamStats_failure s t :
  (getTeamStats t s = None
   <-> isGameStarted s = true
       /\ (length (players s) < if decide (t = 0%Z) then 2 else 4)%nat)
  /\ (t <> 0 -> getTeamStats t s = getTeamStats 1 s).
Proof.
  split.
  - unfold getTeamStats. destruct (isGameStarted s); simpl.
    + destruct (players s) as [|p0 [|p1 [|p2 [|p3 rest]]]];
        case_decide; simpl; split; try done; try (intros [_ ?]; lia);
        try (intros _; split; [done|lia]).
    + split; [done|]. by intros [? _].
  - intros Ht. unfold getTeamStats. by rewrite !decide_False.
Qed.

(** ** More on the chart series *)

Lemma seriesKey_names ps ps' k fb :
  map name ps = map name ps' -> seriesKey ps k fb = seriesKey ps' k fb.
Proof.
  intros Hn. unfold seriesKey.
  assert (Hk : name <$> ps !! k = name <$> ps' !! k).
  { rewrite <- !list_lookup_fmap. by f_equal. }
  destruct (ps !! k) as [p|], (ps' !! k) as [p'|]; simpl in Hk; try done.
  by injection Hk as ->.
Qed.

Lemma chartRow_names ps ps' pt sc :
  map name ps = map name ps' -> chartRow ps pt sc = chartRow ps' pt sc.
Proof.
  intros Hn. unfold chartRow.
  by rewrite !(seriesKey_names ps ps' _ _ Hn).
Qed.

Lemma chartRows_names ps ps' sc log :
  map name ps = map name ps' -> chartRows ps sc log = chartRows ps' sc log.
Proof.
  intros Hn. revert sc. induction log as [|e log IH]; intros sc; simpl; [done|].
  by rewrite IH, (chartRow_names ps ps' _ _ Hn).
Qed.

Lemma chartRows_snoc ps sc log e :
  chartRows ps sc (log ++ [e])
  = chartRows ps sc log
    ++ [chartRow ps (Num (point e)) (scoresAfter sc (log ++ [e]))].
Proof.
  revert sc. induction log as [|e0 log IH]; intros sc; simpl; [done|].
  by rewrite IH.
Qed.

(** X13. A scoring event adds exactly one row at the end of the chart
    series and leaves every earlier row as it was, in any state: the new
    row carries the new entry's point number and the running scores after
    it. *)
Theorem chart_grows_by_one s idx st now :
  getChartData (incrementStat idx st now s)
  = getChartData s
    ++ [chartRow (players s)
          (Num (Z.of_nat (length (statHistory s)) + 1))
          (scoresAfter zeroScores (statHistory (incrementStat idx st now s)))].
Proof.
  rewrite !getChartData_rows. simpl.
  assert (Hn : map name (creditAt idx st (players s)) = map name (players s))
    by apply creditAt_names.
  rewrite (chartRow_names _ _ _ _ Hn), (chartRows_names _ _ _ _ Hn).
  by rewrite chartRows_snoc.
Qed.

Lemma seriesKey_cases ps k fb :
  seriesKey ps k fb = fb \/ seriesKey ps k fb ∈ map name ps.
Proof.
  unfold seriesKey. destruct (ps !! k) as [p|] eqn:Hp; [|by left].
  case_decide; [by left|]. right.
  apply list_elem_of_fmap. exists p. split; [done|].
  by eapply list_elem_of_lookup_2.
Qed.

Lemma chartRow_point ps pt sc :
  "point" ∉ map name ps -> chartRow ps pt sc !! "point" = Some pt.
Proof.
  intros Hpt. unfold chartRow.
  assert (Hk : forall k fb, fb ∈ ["Player 1"; "Player 2"; "Player 3"; "Player 4"] ->
                            seriesKey ps k fb <> "point").
  { intros k fb Hfb. destruct (seriesKey_cases ps k fb) as [-> | Hin].
    - intros ->. by repeat (apply elem_of_cons in Hfb as [Hfb | Hfb]; [done|]);
        apply elem_of_nil in Hfb.
    - intros Heq. by rewrite Heq in Hin. }
  rewrite lookup_insert_ne
    by (apply Hk; do 3 apply list_elem_of_further; apply list_elem_of_here).
  rewrite lookup_insert_ne
    by (apply Hk; do 2 apply list_elem_of_further; apply list_elem_of_here).
  rewrite lookup_insert_ne
    by (apply Hk; do 1 apply list_elem_of_further; apply list_elem_of_here).
  rewrite lookup_insert_ne by (apply Hk; apply list_elem_of_here).
  rewrite lookup_insert_ne by done.
  apply lookup_insert_eq.
Qed.

Lemma numbered_lookup (log : list StatEntry) i e :
  map point log = map Z.of_nat (seq 1 (length log)) ->
  log !! i = Some e -> point e = Z.of_nat i + 1.
Proof.
  intros Hpts Hi.
  assert (H : map point log !! i = Some (point e)).
  { rewrite list_lookup_fmap, Hi. done. }
  rewrite Hpts, list_lookup_fmap in H.
  rewrite lookup_seq_lt in H by (by eapply lookup_lt_Some).
  simpl in H. injection H as H. lia.
Qed.

(** X14. On every reachable page where no player is called "point", the
    point column of the chart counts 0, 1, ..., N: row [i] has point [i]. *)
Theorem chart_points_count h i :
  reachable h ->
  "point" ∉ map name (players (matchState h)) ->
  (i <= length (statHistory (matchState h)))%nat ->
  exists row,
    getChartData (matchState h) !! i = Some row
    /\ row !! "point" = Some (Num (Z.of_nat i)).
Proof.
  intros Hreach Hpt Hi. apply reachable_consistent in Hreach as [Hcons _].
  rewrite getChartData_rows. destruct i as [|i]; simpl.
  - eexists. split; [done|]. by apply chartRow_point.
  - destruct (lookup_lt_is_Some_2 (statHistory (matchState h)) i) as [e He]; [lia|].
    eexists. split; [by apply chartRows_lookup|].
    rewrite chartRow_point by done.
    rewrite (numbered_lookup _ _ _ (ok_points _ Hcons) He). do 2 f_equal. lia.
Qed.

Lemma chart_points_count_witness :
  exists row,
    getChartData (matchState sampleHome) !! 2%nat = Some row
    /\ row !! "point" = Some (Num (Z.of_nat 2)).
Proof.
  apply (chart_points_count sampleHome 2).
  - apply reachable_sampleHome.
  - apply (bool_decide_unpack _). vm_compute. exact I.
  - vm_compute. lia.
Defined.

Lemma chart_row_at s i :
  (i <= length (statHistory s))%nat ->
  exists pt,
    getChartData s !! i
    = Some (chartRow (players s) pt
              (scoresAfter zeroScores (take i (statHistory s)))).
Proof.
  intros Hi. rewrite getChartData_rows. destruct i as [|i]; simpl.
  - by exists (Num 0).
  - destruct (lookup_lt_is_Some_2 (statHistory s) i) as [e He]; [lia|].
    exists (Num (point e)). by apply chartRows_lookup.
Qed.

(** In a row, the value under a name is the running score of the last
    player who bears it. *)
Lemma chartRow_last ps pt sc k p :
  length ps = 4%nat ->
  Forall (fun p => name p <> "") ps ->
  ps !! k = Some p ->
  (forall j q, (k < j)%nat -> ps !! j = Some q -> name q <> name p) ->
  chartRow ps pt sc !! name p = Some (nth k sc NaN).
Proof.
  intros Hlen Hne Hk Hlater.
  destruct (roster_of_four _ Hlen) as (p0 & p1 & p2 & p3 & ->).
  apply Forall_cons in Hne as [Hn0 Hne]. apply Forall_cons in Hne as [Hn1 Hne].
  apply Forall_cons in Hne as [Hn2 Hne]. apply Forall_cons in Hne as [Hn3 _].
  unfold chartRow, seriesKey. simpl. rewrite !decide_False by done.
  destruct k as [|[|[|[|k]]]]; simpl in Hk; try done; injection Hk as <-.
  - rewrite lookup_insert_ne by (by apply (Hlater 3%nat p3); [lia|]).
    rewrite lookup_insert_ne by (by apply (Hlater 2%nat p2); [lia|]).
    rewrite lookup_insert_ne by (by apply (Hlater 1%nat p1); [lia|]).
    apply lookup_insert_eq.
  - rewrite lookup_insert_ne by (by apply (Hlater 3%nat p3); [lia|]).
    rewrite lookup_insert_ne by (by apply (Hlater 2%nat p2); [lia|]).
    apply lookup_insert_eq.
  - rewrite lookup_insert_ne by (by apply (Hlater 3%nat p3); [lia|]).
    apply lookup_insert_eq.
  - apply lookup_insert_eq.
Qed.

(** X15. On every reachable started page, whatever the names are: if no
    later player bears the name of the player at position [k], then row [i]
    of the chart holds under that name the score of player [k] after the
    first [i] log entries, twice that player's winners among them minus the
    unforced errors.  So when two players share a name, both lines of the
    chart show the later player, and a player called "zero" or "point"
    takes over that column. *)
Theorem chart_shows_last_bearer h k p i :
  reachable h ->
  isGameStarted (matchState h) = true ->
  players (matchState h) !! k = Some p ->
  (forall j q, (k < j)%nat -> players (matchState h) !! j = Some q ->
               name q <> name p) ->
  (i <= length (statHistory (matchState h)))%nat ->
  exists row,
    getChartData (matchState h) !! i = Some row
    /\ row !! name p
       = Some (Num (2 * countOf k stat_winners (take i (statHistory (matchState h)))
                    - countOf k stat_unforced_errors
                        (take i (statHistory (matchState h))))).
Proof.
  intros Hreach Hstart Hk Hlater Hi.
  apply reachable_consistent in Hreach as [[Hsc Hro Hna Hre Hpts] _].
  rewrite Hstart in Hro.
  destruct (chart_row_at (matchState h) i Hi) as [pt Hrow].
  eexists. split; [exact Hrow|].
  rewrite (chartRow_last _ _ _ k p) by done.
  assert (Hnames : length (map name (players (matchState h))) = 4%nat)
    by (by rewrite length_map).
  destruct (tracks_replay (map name (players (matchState h)))
              (take i (statHistory (matchState h))) Hnames) as [_ Ht].
  destruct (lookup_lt_is_Some_2
              (projectAll (map name (players (matchState h)))
                 (take i (statHistory (matchState h)))) k) as [q Hq].
  { rewrite projectAll_length, Hnames, <- Hro. by eapply lookup_lt_Some. }
  rewrite nth_lookup, (Ht k q Hq). simpl.
  destruct (replay_counts _ _ _ _ Hq) as (_ & _ & ->). done.
Qed.

(** Two players called "Sam": both chart lines read the column "Sam". *)
Lemma chart_shows_last_bearer_witness :
  let h := onIncrementStat 0 stat_winners 10
             (onStartMatch (enterNames "Sam" "Sam" "C" "D" (initialHome ∅))) in
  exists row,
    getChartData (matchState h) !! 1%nat = Some row
    /\ row !! "Sam"
       = Some (Num (2 * countOf 1 stat_winners (take 1 (statHistory (matchState h)))
                    - countOf 1 stat_unforced_errors
                        (take 1 (statHistory (matchState h))))).
Proof.
  intros h.
  apply (chart_shows_last_bearer h 1
           {| name := "Sam"; winners := 0; unforced_errors := 0; score := 0 |} 1).
  - unfold h, enterNames. apply reach_incrementStat, reach_startMatch.
    do 4 apply reach_setPlayerName. apply reach_initial.
  - reflexivity.
  - reflexivity.
  - intros j q Hj Hq.
    destruct j as [|[|[|[|j]]]]; try lia; vm_compute in Hq;
      try discriminate Hq; injection Hq as <-; discriminate.
  - vm_compute. lia.
Defined.

(** ** Starting a match *)

Lemma strip_spec fwd s :
  (exists pre, s = pre ++ Trim.strip fwd s)
  /\ match Trim.strip fwd s with
     | c :: _ => Trim.ws1 c = false
     | [] => True
     end.
Proof.
  remember (length s) as n eqn:Hn. revert s Hn.
  induction n as [n IH] using lt_wf_ind. intros s Hn.
  destruct s as [|a s1]; [split; [by exists []|done]|].
  simpl. destruct (Trim.ws1 a) eqn:Ha.
  { destruct (IH (length s1) ltac:(simpl in Hn; lia) s1 eq_refl) as [[pre Hpre] Hhd].
    split; [|done]. exists (a :: pre). simpl. by rewrite <- Hpre. }
  destruct s1 as [|b s2]; [split; [by exists []|done]|].
  destruct (if fwd then Trim.ws2 a b else Trim.ws2 b a).
  { destruct (IH (length s2) ltac:(simpl in Hn; lia) s2 eq_refl) as [[pre Hpre] Hhd].
    split; [|done]. exists (a :: b :: pre). simpl. by rewrite <- Hpre. }
  destruct s2 as [|c s3]; [split; [by exists []|done]|].
  destruct (if fwd then Trim.ws3 a b c else Trim.ws3 c b a).
  { destruct (IH (length s3) ltac:(simpl in Hn; lia) s3 eq_refl) as [[pre Hpre] Hhd].
    split; [|done]. exists (a :: b :: c :: pre). simpl. by rewrite <- Hpre. }
  split; [by exists []|done].
Qed.

Lemma trim_clean n : startsClean (trim n) = true /\ endsClean (trim n) = true.
Proof.
  unfold startsClean, endsClean, trim, Trim.trim.
  rewrite list_ascii_of_string_of_list_ascii, rev_involutive.
  set (t := Trim.strip true (list_ascii_of_string n)).
  destruct (strip_spec true (list_ascii_of_string n)) as [_ Ht]. fold t in Ht.
  destruct (strip_spec false (rev t)) as [[pre Hpre] Hu].
  set (u := Trim.strip false (rev t)) in *.
  split.
  - assert (Heq : t = rev u ++ rev pre).
    { rewrite <- rev_app_distr, <- Hpre. by rewrite rev_involutive. }
    destruct (rev u) as [|c r]; [done|].
    rewrite Heq in Ht. simpl in Ht. by rewrite Ht.
  - destruct u as [|c r]; [done|]. by rewrite Hu.
Qed.

Lemma namesReady_false names :
  namesReady names = false -> exists n, n ∈ names /\ trim n = "".
Proof.
  unfold namesReady. induction names as [|n names IH]; simpl; [done|].
  destruct (String.eqb (trim n) "") eqn:He; simpl.
  - intros _. exists n. split; [apply list_elem_of_here|].
    by apply String.eqb_eq.
  - intros (m & Hm & Hempty)%IH. exists m. split; [|done].
    by apply list_elem_of_further.
Qed.

(** X16. [startMatch] refuses exactly when some name is empty once
    trimmed.  When it starts, the roster has one player per name, in order,
    with all counters at zero and an empty log, and every stored name is
    the trimmed input: not empty, and neither starting nor ending with a
    space, a tab or a line break. *)
Theorem startMatch_names names :
  (startMatch names = None <-> exists n, n ∈ names /\ trim n = "")
  /\ forall s,
       startMatch names = Some s ->
       players s = map zeroPlayer (map trim names)
       /\ statHistory s = [] /\ isGameStarted s = true
       /\ Forall (fun p => name p <> "" /\ startsClean (name p) = true
                           /\ endsClean (name p) = true) (players s).
Proof.
  unfold startMatch. split.
  - destruct (namesReady names) eqn:Hr.
    + split; [done|]. intros (n & Hn & Hempty).
      apply namesReady_spec in Hr. rewrite Forall_forall in Hr.
      by destruct (Hr n Hn).
    + split; [|done]. intros _. by apply namesReady_false.
  - intros s. destruct (namesReady names) eqn:Hr; [|done]. intros [= <-]. simpl.
    split; [by rewrite <- list_fmap_compose|]. split; [done|]. split; [done|].
    apply namesReady_spec in Hr. rewrite Forall_forall in Hr.
    apply Forall_forall. intros p (n & -> & Hn)%list_elem_of_fmap. simpl.
    split; [by apply Hr|]. apply trim_clean.
Qed.

(** ** More on import and export *)

(** X17. What the confirmation of an import decides, for a file that holds
    a match state in the shape in which the page writes it.  When the state
    renders, nothing: confirming and declining end in the same page, store
    included, because the persist effect writes the imported state either
    way.  When the state does not render (a started match with fewer than
    four players) the page goes down before the persist effect, and the
    store holds the imported text after a confirmation and is left as it
    was after a refusal. *)
Theorem import_confirmation_effect text v s h :
  readImport text = Imported v -> stateOfValue v = Some s ->
  if renders s
  then importMatchData text true h = importMatchData text false h
       /\ importMatchData text false h
          = Some (persist (setMatchState s h))
  else importMatchData text true h
       = Some {| matchState := s;
                 playerNames := playerNames h;
                 localStorage :=
                   <[storageKey := stringify 0 (stateValue s)]> (localStorage h) |}
       /\ importMatchData text false h = Some (setMatchState s h).
Proof.
  intros Hread Hs. unfold importMatchData. rewrite Hread, Hs. simpl.
  apply stateOfValue_inv in Hs as ->.
  destruct (renders s); [|done]. split; [|done].
  unfold persist, setMatchState. simpl. by rewrite insert_insert_eq.
Qed.

Lemma import_confirmation_effect_witness :
  importMatchData (exportMatchData "2024-05-01T10:00:00.000Z" sampleHome)
                  true sampleStart
  = importMatchData (exportMatchData "2024-05-01T10:00:00.000Z" sampleHome)
                    false sampleStart
  /\ importMatchData
       (exportMatchData "2024-05-01T10:00:00.000Z"
                        (setMatchState lonePlayer sampleStart))
       false sampleStart
     = Some (setMatchState lonePlayer sampleStart).
Proof.
  pose proof (import_confirmation_effect _ _ _ sampleStart
                (readImport_export "2024-05-01T10:00:00.000Z" sampleHome)
                (stateOfValue_stateValue (matchState sampleHome))) as H1.
  pose proof (import_confirmation_effect _ _ _ sampleStart
                (readImport_export "2024-05-01T10:00:00.000Z"
                                   (setMatchState lonePlayer sampleStart))
                (stateOfValue_stateValue lonePlayer)) as H2.
  assert (Hr1 : renders (matchState sampleHome) = true) by reflexivity.
  assert (Hr2 : renders lonePlayer = false) by reflexivity.
  rewrite Hr1 in H1. rewrite Hr2 in H2.
  split; [exact (proj1 H1)|exact (proj2 H2)].
Defined.

#[local] Arguments truthy : simpl never.
#[local] Arguments isArray : simpl never.

(** X18. What an import checks, and all it checks.  A file is accepted
    exactly when its text is JSON for an object whose [matchState] property
    is an object with a truthy [players] property and an array as
    [statHistory]; the value taken over is that [matchState] object.  The
    version, the timestamp, the started flag and the contents of the two
    arrays are not looked at. *)
Theorem import_accepts_iff text v :
  readImport text = Imported v
  <-> exists fields mfields pl items,
        parse text = Some (JObj fields)
        /\ lookupField "matchState" fields = Ref v
        /\ v = JObj mfields
        /\ lookupField "players" mfields = Ref pl
        /\ truthy (Ref pl) = true
        /\ lookupField "statHistory" mfields = Ref (JArr items).
Proof.
  unfold readImport, importCondition. split.
  - destruct (parse text) as [d|]; [|done].
    destruct d as [ |b|n|m e|str|its|fields]; simpl; try done.
    destruct (lookupField "matchState" fields) as [|ms] eqn:Hms; simpl; [done|].
    destruct ms as [ |b|n|m e|str|its|mfields]; simpl; try done.
    all: try (intros H; exfalso; revert H;
              change (truthy (Ref ?x)) with false; by simpl).
    all: try (intros H; exfalso; revert H; by repeat case_match).
    destruct (lookupField "players" mfields) as [|pl] eqn:Hpl; simpl.
    { change (truthy Undefined) with false. by simpl. }
    destruct (truthy (Ref pl)) eqn:Htr; [|done].
    destruct (lookupField "statHistory" mfields) as [|sh] eqn:Hsh; simpl; [done|].
    destruct sh as [ |b|n|m e|str|items|fs]; try done.
    intros [= <-]. by exists fields, mfields, pl, items.
  - intros (fields & mfields & pl & items & -> & Hms & -> & Hpl & Htr & Hsh).
    simpl. rewrite Hms. simpl. rewrite Hpl. simpl. rewrite Htr, Hsh. done.
Qed.

(** X19. Every export is JSON: it parses to an object with exactly the
    properties [matchState], [timestamp] and [version], holding the value of
    the current state, the time of the export and the text 1.0. *)
Theorem export_is_json iso h :
  parse (exportMatchData iso h)
  = Some (JObj [("matchState", stateValue (matchState h));
                ("timestamp", JStr iso);
                ("version", JStr "1.0")]).
Proof.
  unfold exportMatchData. apply parse_stringify.
  change (plain (stateValue (matchState h)) && true = true).
  by rewrite stateValue_plain.
Qed.

Lemma beforeT_date date rest :
  Forall (fun c => c <> "T"%char) (list_ascii_of_string date) ->
  beforeT (date +:+ String "T" rest) = date.
Proof.
  induction date as [|c date IH]; simpl; [done|].
  intros [Hc Hd]%Forall_cons.
  apply Ascii.eqb_neq in Hc. rewrite Hc. by rewrite IH.
Qed.

(** X20. The download is named after the date of the export: for a time
    text made of a date without the letter T, a T and a time of day, the
    file is called padel-match-, the date, .json. *)
Theorem downloadName_date date rest :
  Forall (fun c => c <> "T"%char) (list_ascii_of_string date) ->
  downloadName (date +:+ String "T" rest) = "padel-match-" +:+ date +:+ ".json".
Proof. intros Hd. unfold downloadName. by rewrite beforeT_date. Qed.

Lemma downloadName_date_witness :
  downloadName ("2024-05-01" +:+ String "T" "10:00:00.000Z")
  = "padel-match-" +:+ "2024-05-01" +:+ ".json".
Proof.
  apply (downloadName_date "2024-05-01" "10:00:00.000Z").
  apply (bool_decide_unpack _). vm_compute. exact I.
Defined.

(** ** The shape of the state *)

(** X21. On every reachable page: the name inputs are four; a started match
    has four players, none with an empty name; a match that has not started
    has no player; and the log is numbered from 1, entry [i] carrying point
    [i + 1], also after imports, resets and key presses. *)
Theorem state_shape h :
  reachable h ->
  length (playerNames h) = 4%nat
  /\ (if isGameStarted (matchState h)
      then length (players (matchState h)) = 4%nat
           /\ Forall (fun p => name p <> "") (players (matchState h))
      else players (matchState h) = [])
  /\ forall i e, statHistory (matchState h) !! i = Some e ->
                 point e = Z.of_nat i + 1.
Proof.
  intros [Hcons Hnames]%reachable_consistent. split; [done|]. split.
  - pose proof (ok_roster _ Hcons) as Hro. pose proof (ok_names _ Hcons).
    by destruct (isGameStarted (matchState h)).
  - intros i e. apply numbered_lookup, (ok_points _ Hcons).
Qed.

Lemma state_shape_witness :
  length (playerNames sampleHome) = 4%nat
  /\ point {| point := 2; playerIndex := 2; stat := stat_unforced_errors;
              timestamp := 1700000000500 |} = Z.of_nat 1 + 1.
Proof.
  destruct (state_shape sampleHome reachable_sampleHome) as (Hn & _ & Hp).
  split; [exact Hn|]. apply Hp. reflexivity.
Defined.



(** X23. The [catch] branch of an import runs in two cases only: the text
    is not JSON, or it is JSON for [null].  Every other text that is not
    accepted is answered with the invalid-format message. *)
Theorem import_parse_failure_iff text :
  (readImport text = ParseFailure
   <-> parse text = None \/ parse text = Some JNull)
  /\ (readImport text = InvalidFormat
      <-> exists d, parse text = Some d /\ d <> JNull
                    /\ forall v, readImport text <> Imported v).
Proof.
  unfold readImport, importCondition.
  destruct (parse text) as [d|]; [|split; split; try done; [by left|by intros (? & ? & _)]].
  destruct d as [ |b|n|m e|str|its|fields]; simpl.
  1: { split; split; try done; [by right|]. by intros (d & [= <-] & Hd & _). }
  1-5: (split; split; try done; [by intros [|]|]; intros _;
        eexists; (split; [reflexivity|]); (split; [done|]); done).
  destruct (lookupField "matchState" fields) as [|ms] eqn:Hms; simpl.
  { split; split; try done; [by intros [|]|]. intros _.
    eexists. split; [reflexivity|]. split; done. }
  destruct (truthy (Ref ms)) eqn:Htr; simpl.
  2: { split; split; try done; [by intros [|]|]. intros _.
       eexists. split; [reflexivity|]. split; done. }
  destruct ms as [ |b|n|m e|str|its|mfields]; try discriminate Htr; simpl.
  1-5: (split; split; try done; [by intros [|]|]; intros _;
        eexists; (split; [reflexivity|]); (split; [done|]); done).
  destruct (truthy (lookupField "players" mfields)); simpl.
  2: { split; split; try done; [by intros [|]|]. intros _.
       eexists. split; [reflexivity|]. split; done. }
  destruct (isArray (lookupField "statHistory" mfields)); simpl.
  - split; split; try done; [by intros [|]|].
    intros (d & _ & _ & Hno). by destruct (Hno (JObj mfields)).
  - split; split; try done; [by intros [|]|]. intros _.
    eexists. split; [reflexivity|]. split; done.
Qed.

Lemma runAppends_prefix ops s k :
  statHistory s = [] ->
  statHistory (runAppends (take k ops) s) = take k (statHistory (runAppends ops s)).
Proof.
  intros Hempty.
  rewrite <- (take_drop k ops) at 2. rewrite runAppends_app.
  destruct (runAppends_log (take k ops) s) as (a1 & Hlog1 & Hlen1 & _).
  destruct (runAppends_log (drop k ops) (runAppends (take k ops) s))
    as (a2 & Hlog2 & Hlen2 & _).
  rewrite Hlog2. rewrite Hempty in Hlog1. simpl in Hlog1. rewrite Hlog1 in *.
  rewrite length_take in Hlen1. rewrite length_drop in Hlen2.
  destruct (decide (k <= length ops)%nat).
  - rewrite take_app_length' by lia. done.
  - destruct a2; [|simpl in Hlen2; lia].
    rewrite app_nil_r. rewrite take_ge by lia. done.
Qed.

(** X25. Fold consistency at every prefix: after any run of appends on a
    freshly started match, the roster reached after the first [k] appends
    is the replay, from the all-zero roster, of the first [k] entries of
    the final log. *)
Theorem replay_matches_every_prefix names s0 ops k :
  startMatch names = Some s0 ->
  players (runAppends (take k ops) s0)
  = projectAll (map name (players s0)) (take k (statHistory (runAppends ops s0))).
Proof.
  intros Hs. rewrite (replay_matches_appends names s0 (take k ops) Hs).
  f_equal. apply runAppends_prefix.
  unfold startMatch in Hs. destruct (namesReady names); [|done].
  by injection Hs as <-.
Qed.

Lemma replay_matches_every_prefix_witness :
  players (runAppends (take 1 [(0, stat_winners, 10); (2, stat_winners, 20)])
             (matchState sampleStart))
  = projectAll (map name (players (matchState sampleStart)))
      (take 1 (statHistory (runAppends [(0, stat_winners, 10); (2, stat_winners, 20)]
                              (matchState sampleStart)))).
Proof.
  apply (replay_matches_every_prefix ["A"; "B"; "C"; "D"]).
  reflexivity.
Defined.

(** ** What the chart draws *)

Lemma scores_are_numbers log k :
  (k < 4)%nat -> isNum (nth k (scoresAfter zeroScores log) NaN).
Proof.
  intros Hk.
  destruct (tracks_replay [""; ""; ""; ""] log eq_refl) as [_ Ht].
  destruct (lookup_lt_is_Some_2 (projectAll [""; ""; ""; ""] log) k) as [q Hq].
  { rewrite projectAll_length. simpl. lia. }
  rewrite nth_lookup, (Ht k q Hq). by eexists.
Qed.

Lemma chartRow_numbers ps pt sc :
  isNum pt -> (forall k, (k < 4)%nat -> isNum (nth k sc NaN)) ->
  map_Forall (fun _ v => isNum v) (chartRow ps pt sc).
Proof.
  intros Hpt Hsc. unfold chartRow.
  repeat (apply map_Forall_insert_2; [first [by apply Hsc; lia | by exists 0 | done]|]).
  apply map_Forall_empty.
Qed.

Lemma chartRow_keys ps pt sc key :
  key ∈ ["point"; "zero"; seriesKey ps 0 "Player 1"; seriesKey ps 1 "Player 2";
         seriesKey ps 2 "Player 3"; seriesKey ps 3 "Player 4"] ->
  is_Some (chartRow ps pt sc !! key).
Proof.
  intros Hkey. unfold chartRow. rewrite !lookup_insert_is_Some'.
  repeat (apply elem_of_cons in Hkey as [-> | Hkey]; [tauto|]).
  by apply elem_of_nil in Hkey.
Qed.

Lemma chart_rows_shape s row :
  row ∈ getChartData s ->
  exists pt i,
    isNum pt /\ row = chartRow (players s) pt
                        (scoresAfter zeroScores (take i (statHistory s))).
Proof.
  intros [i Hi]%list_elem_of_lookup.
  assert (Hlen : (i <= length (statHistory s))%nat).
  { apply lookup_lt_Some in Hi. rewrite getChartData_rows in Hi. simpl in Hi.
    rewrite chartRows_length in Hi. lia. }
  rewrite getChartData_rows in Hi. destruct i as [|i]; simpl in Hi.
  - injection Hi as <-. exists (Num 0), 0%nat. split; [by exists 0|done].
  - destruct (lookup_lt_is_Some_2 (statHistory s) i) as [e He]; [lia|].
    rewrite (chartRows_lookup _ _ _ _ _ He) in Hi. injection Hi as <-.
    exists (Num (point e)), (S i). split; [by eexists|done].
Qed.

(** X26. In any state, also one whose log names players that do not exist,
    every row of the chart series defines each key the chart draws (point,
    zero and the four line keys), and every value of a row is a number,
    never NaN or undefined. *)
Theorem chart_rows_drawable s row :
  row ∈ getChartData s ->
  (forall key, key ∈ drawnKeys s -> is_Some (row !! key))
  /\ map_Forall (fun _ v => isNum v) row.
Proof.
  intros (pt & i & Hpt & ->)%chart_rows_shape. split.
  - intros key Hkey. by apply chartRow_keys.
  - apply chartRow_numbers; [done|]. intros k Hk. by apply scores_are_numbers.
Qed.

Lemma chart_rows_drawable_witness :
  let s := incrementStat 9 stat_winners 5 (matchState sampleStart) in
  exists row,
    row ∈ getChartData s /\ map_Forall (fun _ v => isNum v) row.
Proof.
  intros s.
  assert (Hrow : chartRow (players s) (Num 1) (scoresAfter zeroScores (statHistory s))
                   ∈ getChartData s).
  { rewrite getChartData_rows. apply list_elem_of_further, list_elem_of_here. }
  eexists. split; [exact Hrow|].
  exact (proj2 (chart_rows_drawable s _ Hrow)).
Defined.
